(** * PosthogAnalytics: the redaction and consent pipeline of src/PosthogAnalytics.ts

    A shallow embedding of [hashHex], [knownScreens],
    [getRedactedCurrentLocation] and the [PosthogAnalytics] class, followed by
    the properties of the pipeline.

    Conventions.
    - A JavaScript string is a Rocq [string] holding its UTF-8 bytes, so
      [TextEncoder().encode] is [list_byte_of_string].  The separator "/" and
      the prefix "file://" are ASCII, and neither occurs inside a multi-byte
      sequence, so [split] and [startsWith] agree with their UTF-16 versions.
    - A promise that rejects is [None]; one that fulfils with [v] is [Some v].
    - An [async] method is cut at its [await]s: the code up to the first
      [await] runs when the method is called, every later piece runs when the
      scheduler resumes it, and other calls may run in between. *)

From Stdlib Require Import ZArith String Ascii List Bool Lia.
From Stdlib.Strings Require Import Byte.
From stdpp Require Import base option list strings gmap.

#[local] Open Scope string_scope.

(** ** Strings as the source uses them *)

Module Str.

(** [s.split(sep)] for a one-character separator: never empty, [""] splits
    to [[""]]. *)
Fixpoint split (sep : ascii) (s : string) : list string :=
  match s with
  | EmptyString => [EmptyString]
  | String c s' =>
      if Ascii.eqb c sep then EmptyString :: split sep s'
      else match split sep s' with
           | [] => [String c EmptyString]
           | w :: ws => String c w :: ws
           end
  end.

(** [l.join(sep)]. *)
Fixpoint join (sep : string) (l : list string) : string :=
  match l with
  | [] => EmptyString
  | [x] => x
  | x :: l' => x ++ sep ++ join sep l'
  end.

(** [s.startsWith(p)]. *)
Definition startsWith (s p : string) : bool := String.prefix p s.

(** [s.padStart(n, c)] for a one-character pad. *)
Fixpoint padStart_fill (k : nat) (c : ascii) (s : string) : string :=
  match k with
  | O => s
  | S k' => String c (padStart_fill k' c s)
  end.

Definition padStart (n : nat) (c : ascii) (s : string) : string :=
  padStart_fill (n - String.length s) c s.

(** [c] occurs in [s]. *)
Fixpoint has (c : ascii) (s : string) : bool :=
  match s with
  | EmptyString => false
  | String d s' => Ascii.eqb d c || has c s'
  end.

(** [sub] occurs in [s] as a substring ([s.includes(sub)]). *)
Fixpoint includes (s sub : string) : bool :=
  String.prefix sub s ||
  match s with
  | EmptyString => false
  | String _ s' => includes s' sub
  end.

(** Every character of [s] satisfies [f]. *)
Fixpoint all (f : ascii -> bool) (s : string) : bool :=
  match s with
  | EmptyString => true
  | String c s' => f c && all f s'
  end.

End Str.

(** ** SHA-256 (FIPS 180-4), the digest behind [crypto.subtle.digest("sha-256", _)]

    32-bit words are [Z] with the wrap-around written out. *)

Module Sha256.

#[local] Open Scope Z_scope.

Definition w32 (x : Z) : Z := x mod 2 ^ 32.
Definition add32 (x y : Z) : Z := w32 (x + y).
Definition rotr (n x : Z) : Z :=
  Z.lor (Z.shiftr x n) (w32 (Z.shiftl x (32 - n))).
Definition not32 (x : Z) : Z := Z.lxor x 0xffffffff.

Definition Ch (x y z : Z) : Z := Z.lxor (Z.land x y) (Z.land (not32 x) z).
Definition Maj (x y z : Z) : Z :=
  Z.lxor (Z.lxor (Z.land x y) (Z.land x z)) (Z.land y z).
Definition Sigma0 (x : Z) : Z := Z.lxor (Z.lxor (rotr 2 x) (rotr 13 x)) (rotr 22 x).
Definition Sigma1 (x : Z) : Z := Z.lxor (Z.lxor (rotr 6 x) (rotr 11 x)) (rotr 25 x).
Definition sigma0 (x : Z) : Z := Z.lxor (Z.lxor (rotr 7 x) (rotr 18 x)) (Z.shiftr x 3).
Definition sigma1 (x : Z) : Z := Z.lxor (Z.lxor (rotr 17 x) (rotr 19 x)) (Z.shiftr x 10).

(** The constants of FIPS 180-4, section 4.2.2 and 5.3.3: the first 32 bits of
    the fractional parts of the cube roots of the first 64 primes, and of the
    square roots of the first 8. *)
Definition is_prime (n : Z) : bool :=
  forallb (fun d => negb (n mod d =? 0)) (map Z.of_nat (seq 2 (Z.to_nat n - 2))).

Definition primes : list Z :=
  Eval vm_compute in List.filter is_prime (map Z.of_nat (seq 2 310)).

Fixpoint cbrt_bits (bits : nat) (n r : Z) : Z :=
  match bits with
  | O => r
  | S b =>
      let r' := r + 2 ^ Z.of_nat b in
      cbrt_bits b n (if r' ^ 3 <=? n then r' else r)
  end.

Definition K : list Z :=
  Eval vm_compute in map (fun p => w32 (cbrt_bits 40 (p * 2 ^ 96) 0)) primes.

Definition H0 : list Z :=
  Eval vm_compute in map (fun p => w32 (Z.sqrt (p * 2 ^ 64))) (firstn 8 primes).

(** Big-endian bytes of a word, and back. *)
Definition be_bytes (n : nat) (x : Z) : list Z :=
  map (fun i => Z.land (Z.shiftr x (8 * Z.of_nat i)) 0xff) (rev (seq 0 n)).

Definition be_word (bs : list Z) : Z :=
  fold_left (fun acc b => Z.lor (Z.shiftl acc 8) b) bs 0.

(** Padding: the bit 1, zeros up to 56 mod 64 bytes, the bit length on 64 bits. *)
Definition pad (msg : list Z) : list Z :=
  let len := Z.of_nat (length msg) in
  let zeros := Z.to_nat ((55 - len) mod 64) in
  msg ++ [0x80] ++ repeat 0 zeros ++ be_bytes 8 (8 * len).

Fixpoint chunks (fuel : nat) (n : nat) (l : list Z) : list (list Z) :=
  match fuel, l with
  | O, _ | _, [] => []
  | S fuel', _ => firstn n l :: chunks fuel' n (skipn n l)
  end.

(** The message schedule, most recent word first. *)
Fixpoint schedule (n : nat) (w : list Z) : list Z :=
  match n with
  | O => w
  | S n' =>
      let wt := add32 (add32 (sigma1 (nth 1 w 0)) (nth 6 w 0))
                      (add32 (sigma0 (nth 14 w 0)) (nth 15 w 0)) in
      schedule n' (wt :: w)
  end.

Definition round (st : list Z) (kw : Z * Z) : list Z :=
  match st with
  | [a; b; c; d; e; f; g; h] =>
      let t1 := add32 (add32 (add32 h (Sigma1 e)) (add32 (Ch e f g) (fst kw))) (snd kw) in
      let t2 := add32 (Sigma0 a) (Maj a b c) in
      [add32 t1 t2; a; b; c; add32 d t1; e; f; g]
  | _ => st
  end.

Definition compress (h : list Z) (block : list Z) : list Z :=
  let w0 := map be_word (chunks 16 4 block) in
  let w := rev (schedule 48 (rev w0)) in
  let st := fold_left round (combine K w) h in
  map (fun p => add32 (fst p) (snd p)) (combine h st).

Definition digestZ (msg : list Z) : list Z :=
  let m := pad msg in
  let blocks := chunks (length m) 64 m in
  flat_map (be_bytes 4) (fold_left compress blocks H0).

Definition digest (msg : list byte) : list byte :=
  map (fun z => default x00 (Byte.of_N (Z.to_N z)))
      (digestZ (map (fun b => Z.of_N (Byte.to_N b)) msg)).

End Sha256.

(** ** [hashHex] (PosthogAnalytics.ts:35-39) *)

Module Hex.

(** One digit of [Number.prototype.toString(16)]. *)
Definition digit (n : N) : ascii :=
  if (n <? 10)%N then ascii_of_N (48 + n) else ascii_of_N (87 + n).

(** [b.toString(16)] for a byte value. *)
Definition toString16 (n : N) : string :=
  if (n <? 16)%N then String (digit n) EmptyString
  else String (digit (n / 16)) (String (digit (n mod 16)) EmptyString).

(** [b.toString(16).padStart(2, "0")]. *)
Definition ofByte (b : byte) : string :=
  Str.padStart 2 "0"%char (toString16 (Byte.to_N b)).

Definition is_digit (c : ascii) : bool := Str.has c "0123456789abcdef".

(** Reading the encoding back: the value of a digit, and the bytes of a
    string of two digits per byte. *)
Definition value (c : ascii) : option N :=
  let n := N_of_ascii c in
  if ((48 <=? n) && (n <=? 57))%N then Some (n - 48)%N
  else if ((97 <=? n) && (n <=? 102))%N then Some (n - 87)%N
  else None.

Fixpoint decode (s : string) : option (list byte) :=
  match s with
  | EmptyString => Some []
  | String c1 (String c2 s') =>
      hi ← value c1;
      lo ← value c2;
      b ← Byte.of_N (16 * hi + lo);
      bs ← decode s';
      Some (b :: bs)
  | _ => None
  end.

End Hex.

(** ** The data of the pipeline *)

Inductive Anonymity := Anonymous | Pseudonymous.

(** A property value handed to the sink. *)
Inductive JsValue :=
| JNull
| JBool (b : bool)
| JNum (n : Z)
| JStr (s : string).

(** [window.location], as far as the pipeline reads it. *)
Record Location := mkLocation {
  origin : string;
  hash : string;
  pathname : string;
}.

(** [SdkConfig.get()["posthog"]], as far as [init] reads it. *)
Record PosthogConfig := mkPosthogConfig {
  projectApiKey : string;
  apiHost : string;
}.

(** What the page gives the pipeline and does not change while it runs:
    [navigator.doNotTrack] and the sink's entry of the configuration. *)
Record Env := mkEnv {
  doNotTrack : option string;
  posthogConfig : option PosthogConfig;
}.

(** The private fields of [PosthogAnalytics] (lines 69-72); the [posthog]
    field is the sink, whose calls are recorded in the log below. *)
Record PosthogAnalytics := mkThis {
  onlyTrackAnonymousEvents : bool;
  initialised : bool;
  redactedCurrentLocation : option string;
}.

(** What a call does that can be observed: the writes of the cache, the calls
    of the sink, and how the promise handed to the caller settles. *)
Inductive Event :=
| CacheUpdated (v : string)
| SinkInit (apiKey apiHost : string)
| SinkCapture (eventName : string) (properties : gmap string JsValue)
| SinkIdentify (id : string)
| Fulfilled
| Rejected
| UnhandledRejection.

(** The places where an [async] method of the class waits. *)
Inductive Pending :=
| InitUpdating (cfg : PosthogConfig) (r : option string)
| InitUpdated (cfg : PosthogConfig)
| CaptureUpdating (eventName : string) (properties : gmap string JsValue) (r : option string)
| CaptureUpdated (eventName : string) (properties : gmap string JsValue)
| IdentifyHashing (r : option string)
| RoomHashing (eventName : string) (properties : gmap string JsValue) (r : option string).

(** The public methods a caller can call. *)
Inductive Call :=
| CInit (onlyTrackAnonymous : bool)
| CIdentifyUser (userId : string)
| CSetOnlyTrackAnonymousEvents (enabled : bool)
| CTrackPseudonymousEvent (eventName : string) (properties : gmap string JsValue)
| CTrackAnonymousEvent (eventName : string) (properties : gmap string JsValue)
| CTrackRoomEvent (eventName roomId : string) (properties : gmap string JsValue).

(** One step of the page: a caller calls a method, the scheduler resumes the
    call numbered [t] where it waits, or the user navigates. *)
Inductive Action :=
| Invoke (c : Call)
| Resume (t : nat)
| Navigate (loc : Location).

(** The instance, the page around it, the calls that wait and the log; a
    call is named by its rank among the calls made. *)
Record World := mkWorld {
  this : PosthogAnalytics;
  location : Location;
  pending : gmap nat Pending;
  next_call : nat;
  log : list (nat * Event);
}.

Definition set_onlyTrackAnonymousEvents (b : bool) (a : PosthogAnalytics) :=
  mkThis b (initialised a) (redactedCurrentLocation a).
Definition set_initialised (b : bool) (a : PosthogAnalytics) :=
  mkThis (onlyTrackAnonymousEvents a) b (redactedCurrentLocation a).
Definition set_redactedCurrentLocation (v : option string) (a : PosthogAnalytics) :=
  mkThis (onlyTrackAnonymousEvents a) (initialised a) v.

Definition with_this (f : PosthogAnalytics -> PosthogAnalytics) (w : World) : World :=
  mkWorld (f (this w)) (location w) (pending w) (next_call w) (log w).
Definition emit (t : nat) (e : Event) (w : World) : World :=
  mkWorld (this w) (location w) (pending w) (next_call w) (log w ++ [(t, e)]).
Definition suspend (t : nat) (k : Pending) (w : World) : World :=
  mkWorld (this w) (location w) (<[t := k]> (pending w)) (next_call w) (log w).
Definition retire (t : nat) (w : World) : World :=
  mkWorld (this w) (location w) (delete t (pending w)) (next_call w) (log w).
Definition fresh_call (w : World) : World :=
  mkWorld (this w) (location w) (pending w) (S (next_call w)) (log w).
Definition navigate (loc : Location) (w : World) : World :=
  mkWorld (this w) loc (pending w) (next_call w) (log w).

(** [new PosthogAnalytics(posthog)] on a page at [loc]. *)
Definition initial (loc : Location) : World :=
  mkWorld (mkThis false false None) loc ∅ 0 [].

(** ** [knownScreens] and [getRedactedCurrentLocation] (lines 41-66) *)

Definition knownScreens : gset string :=
  list_to_set
    [ "register"; "login"; "forgot_password"; "soft_logout"; "new"; "settings"; "welcome"; "home";
      "start"; "directory"; "start_sso"; "start_cas"; "groups"; "complete_security";
      "post_registration"; "room"; "user"; "group" ].

(** [knownScreens.has(screen)]; [None] is [undefined], which is no member. *)
Definition knownScreens_has (screen : option string) : bool :=
  match screen with
  | Some s => bool_decide (s ∈ knownScreens)
  | None => false
  end.

(** [let [_, screen, ...parts] = l]: a missing element is [undefined]. *)
Definition destructure (l : list string) : option string * option string * list string :=
  (head l, head (tail l), tail (tail l)).

(** [`${x}`]. *)
Definition template (x : option string) : string := default "undefined" x.

Section Pipeline.

(** [window.crypto.subtle.digest("sha-256", buf)]: provided by the platform;
    [None] is a rejected promise (for instance no [crypto.subtle] in an
    insecure context). *)
Variable subtle_digest : list byte -> option (list byte).

(** What the sink hands to its [sanitize_properties] hook for an event: its
    own built-in properties (the raw URL, the referrer, the device id, ...)
    together with the caller's.  The sink is not part of the repository. *)
Variable sink_properties :
  Location -> string -> gmap string JsValue -> gmap string JsValue.

Variable env : Env.

Definition hashHex (input : string) : option string :=
  let buf := list_byte_of_string input in
  digestBuf ← subtle_digest buf;
  Some (Str.join "" (map Hex.ofByte digestBuf)).

(** The loop of lines 60-62; the first digest that fails rejects the call. *)
Fixpoint redactParts (anonymity : Anonymity) (parts : list string) : option (list string) :=
  match parts with
  | [] => Some []
  | p :: ps =>
      p' ← match anonymity with
           | Anonymous => Some "<redacted>"
           | Pseudonymous => hashHex p
           end;
      ps' ← redactParts anonymity ps;
      Some (p' :: ps')
  end.

Definition getRedactedCurrentLocation
    (origin hash pathname : string) (anonymity : Anonymity) : option string :=
  let pathname :=
    if Str.startsWith origin "file://" then "/<redacted_file_scheme_url>/" else pathname in
  let '(tok, screen, parts) := destructure (Str.split "/" hash) in
  let screen := if negb (knownScreens_has screen) then Some "<redacted_screen_name>" else screen in
  parts ← redactParts anonymity parts;
  let hashStr := template tok ++ "/" ++ template screen ++ "/" ++ Str.join "/" parts in
  Some (origin ++ pathname ++ hashStr).

(** ** The class [PosthogAnalytics] (lines 68-185) *)

(** [this.redactedCurrentLocation] as a property value. *)
Definition of_cache (c : option string) : JsValue :=
  match c with
  | Some v => JStr v
  | None => JNull
  end.

(** Lines 118-138. *)
Definition sanitizeProperties
    (a : PosthogAnalytics) (properties : gmap string JsValue) : gmap string JsValue :=
  let properties := <["$current_url" := of_cache (redactedCurrentLocation a)]> properties in
  if onlyTrackAnonymousEvents a then
    let properties := <["$referrer" := JNull]> properties in
    let properties := <["$referring_domain" := JNull]> properties in
    let properties := <["$initial_referrer" := JNull]> properties in
    let properties := <["$initial_referring_domain" := JNull]> properties in
    <["$device_id" := JNull]> properties
  else properties.

(** Lines 145-147. *)
Definition isInitialised (a : PosthogAnalytics) : bool := initialised a.

(** Lines 111-116 up to the [await]: the location and the flag are read when
    the method is called, and the argument, if any, is not looked at. *)
Definition updateRedactedCurrentLocation_begin (w : World) : option string :=
  getRedactedCurrentLocation
    (origin (location w)) (hash (location w)) (pathname (location w))
    (if onlyTrackAnonymousEvents (this w) then Anonymous else Pseudonymous).

(** Line 114 after the [await]: the assignment of the cache. *)
Definition updateRedactedCurrentLocation_end (t : nat) (v : string) (w : World) : World :=
  emit t (CacheUpdated v) (with_this (set_redactedCurrentLocation (Some v)) w).

(** [posthog.capture(eventName, properties)]: the sink runs the hook that
    [init] gave it on the properties of the event, at once. *)
Definition posthog_capture
    (t : nat) (eventName : string) (properties : gmap string JsValue) (w : World) : World :=
  emit t (SinkCapture eventName
            (sanitizeProperties (this w) (sink_properties (location w) eventName properties))) w.

(** Lines 153-157 up to the [await]; [anonymity] is [None] for the
    [undefined] that line 164 passes. *)
Definition capture
    (t : nat) (eventName : string) (properties : gmap string JsValue)
    (anonymity : option Anonymity) (w : World) : World :=
  if negb (initialised (this w)) then w
  else suspend t (CaptureUpdating eventName properties (updateRedactedCurrentLocation_begin w)) w.

(** Lines 159-165. *)
Definition trackPseudonymousEvent
    (t : nat) (eventName : string) (properties : gmap string JsValue) (w : World) : World :=
  if onlyTrackAnonymousEvents (this w) then w
  else capture t eventName properties None w.

(** Lines 167-172. *)
Definition trackAnonymousEvent
    (t : nat) (eventName : string) (properties : gmap string JsValue) (w : World) : World :=
  capture t eventName properties (Some Anonymous) w.

(** Lines 179-183, once [hashedRoomId] is known. *)
Definition trackRoomEvent_end
    (t : nat) (eventName : string) (properties : gmap string JsValue)
    (hashedRoomId : JsValue) (w : World) : World :=
  let updatedProperties := <["hashedRoomId" := hashedRoomId]> properties in
  emit t Fulfilled (trackPseudonymousEvent t eventName updatedProperties w).

(** A method is called: its code up to the first [await]. *)
Definition invoke (c : Call) (w : World) : World :=
  let t := next_call w in
  let w := fresh_call w in
  match c with
  | CInit onlyTrackAnonymous =>
      if bool_decide (doNotTrack env = Some "1") then
        emit t Fulfilled (with_this (set_initialised false) w)
      else
        let w := with_this (set_onlyTrackAnonymousEvents onlyTrackAnonymous) w in
        match posthogConfig env with
        | Some cfg => suspend t (InitUpdating cfg (updateRedactedCurrentLocation_begin w)) w
        | None => emit t Fulfilled w
        end
  | CIdentifyUser userId =>
      if onlyTrackAnonymousEvents (this w) then emit t Fulfilled w
      else suspend t (IdentifyHashing (hashHex userId)) w
  | CSetOnlyTrackAnonymousEvents enabled =>
      with_this (set_onlyTrackAnonymousEvents enabled) w
  | CTrackPseudonymousEvent eventName properties =>
      emit t Fulfilled (trackPseudonymousEvent t eventName properties w)
  | CTrackAnonymousEvent eventName properties =>
      emit t Fulfilled (trackAnonymousEvent t eventName properties w)
  | CTrackRoomEvent eventName roomId properties =>
      if String.eqb roomId "" then trackRoomEvent_end t eventName properties JNull w
      else suspend t (RoomHashing eventName properties (hashHex roomId)) w
  end.

(** The call [t] goes on from where it waits, up to its next [await]. *)
Definition resume (t : nat) (w : World) : World :=
  match pending w !! t with
  | None => w
  | Some k =>
      let w := retire t w in
      match k with
      | InitUpdating cfg None => emit t Rejected w
      | InitUpdating cfg (Some v) =>
          suspend t (InitUpdated cfg) (updateRedactedCurrentLocation_end t v w)
      | InitUpdated cfg =>
          let w := emit t (SinkInit (projectApiKey cfg) (apiHost cfg)) w in
          let w := posthog_capture t "$pageview" ∅ w in
          emit t Fulfilled (with_this (set_initialised true) w)
      | CaptureUpdating eventName properties None => emit t UnhandledRejection w
      | CaptureUpdating eventName properties (Some v) =>
          suspend t (CaptureUpdated eventName properties)
                  (updateRedactedCurrentLocation_end t v w)
      | CaptureUpdated eventName properties => posthog_capture t eventName properties w
      | IdentifyHashing None => emit t Rejected w
      | IdentifyHashing (Some h) => emit t Fulfilled (emit t (SinkIdentify h) w)
      | RoomHashing eventName properties None => emit t Rejected w
      | RoomHashing eventName properties (Some h) =>
          trackRoomEvent_end t eventName properties (JStr h) w
      end
  end.

Definition step (w : World) (a : Action) : World :=
  match a with
  | Invoke c => invoke c w
  | Resume t => resume t w
  | Navigate loc => navigate loc w
  end.

Definition run (acts : list Action) (w : World) : World := fold_left step acts w.

End Pipeline.

(** ** Reading the log *)

(** The events of the call [t], in order. *)
Definition events_of (t : nat) (l : list (nat * Event)) : list Event :=
  omap (fun te => if Nat.eqb (fst te) t then Some (snd te) else None) l.

Definition is_sink_call (e : Event) : bool :=
  match e with
  | SinkInit _ _ | SinkCapture _ _ | SinkIdentify _ => true
  | _ => false
  end.

Definition is_sink_capture (e : Event) : bool :=
  match e with
  | SinkCapture _ _ => true
  | _ => false
  end.

(** The value of the cache after the events of [l]. *)
Definition last_cache (l : list (nat * Event)) : option string :=
  fold_left (fun c te => match snd te with CacheUpdated v => Some v | _ => c end) l None.

(** The trailing segments of a fragment: what line 54 binds to [parts]. *)
Definition trailingSegments (hash : string) : list string :=
  tail (tail (Str.split "/" hash)).

(** The platform with a working SHA-256, and the one whose digest rejects. *)
Definition sha256_digest (buf : list byte) : option (list byte) := Some (Sha256.digest buf).
Definition no_digest (buf : list byte) : option (list byte) := None.

(** A sink that adds the raw URL, the referrer and its device id to the
    caller's properties, the caller's winning. *)
Definition posthog_properties
    (loc : Location) (eventName : string) (properties : gmap string JsValue)
    : gmap string JsValue :=
  properties ∪
  <["$current_url" := JStr (origin loc ++ pathname loc ++ hash loc)]>
  (<["$referrer" := JStr "https://matrix.org/"]>
  (<["$device_id" := JStr "17a5b1c2-device"]> ∅)).

(** The screen-name segment of a fragment: what line 54 binds to [screen]. *)
Definition screenSegment (hash : string) : option string :=
  head (tail (Str.split "/" hash)).

(** The filesystem-path component of the output (lines 50-52 and 65). *)
Definition pathComponent (origin pathname : string) : string :=
  if Str.startsWith origin "file://" then "/<redacted_file_scheme_url>/" else pathname.

(** The keys that line 126-135 null. *)
Definition referrerKeys : list string :=
  [ "$referrer"; "$referring_domain"; "$initial_referrer"; "$initial_referring_domain"; "$device_id" ].

(** The digest can be taken of every value that the redaction of the
    fragment [hash] hashes under the tier [a]. *)
Definition digestible
    (digest : list byte -> option (list byte)) (a : Anonymity) (hash : string) : Prop :=
  a = Anonymous \/ Forall (fun seg => is_Some (hashHex digest seg)) (trailingSegments hash).

(** The call that an action runs code of. *)
Definition actor (w : World) (a : Action) : nat :=
  match a with
  | Resume t => t
  | _ => next_call w
  end.

(** Calls are numbered below [next_call]: a call not yet made neither waits
    nor has done anything. *)
Definition wf (w : World) : Prop :=
  forall t, next_call w <= t -> pending w !! t = None /\ events_of t (log w) = [].

(** The places where a call waits for a digest alone: what it does when it
    goes on is known from the place. *)
Definition last_events (k : Pending) : option (list Event) :=
  match k with
  | IdentifyHashing (Some h) => Some [SinkIdentify h; Fulfilled]
  | IdentifyHashing None => Some [Rejected]
  | RoomHashing _ _ None => Some [Rejected]
  | CaptureUpdating _ _ None => Some [UnhandledRejection]
  | InitUpdating _ None => Some [Rejected]
  | _ => None
  end.

Definition is_failure (e : Event) : bool :=
  match e with
  | Rejected | UnhandledRejection => true
  | _ => false
  end.

(** A call that still waits has neither called the sink nor failed, and a
    call that failed has not called the sink. *)
Definition aborts_cleanly (w : World) (t : nat) : Prop :=
  let evs := events_of t (log w) in
  (is_Some (pending w !! t) -> existsb is_sink_call evs = false /\ existsb is_failure evs = false) /\
  (existsb is_failure evs = true -> existsb is_sink_call evs = false).

(** [v] is an output of the redaction. *)
Definition is_redaction (digest : list byte -> option (list byte)) (v : string) : Prop :=
  exists o h p a, getRedactedCurrentLocation digest o h p a = Some v.

(** What the ordering asks when the call [t] reaches the sink's capture with
    [properties] after the events [before]: the call has written the cache,
    and the hook read a value that a recompute wrote, an output of the
    redaction. *)
Definition recomputed_before
    (digest : list byte -> option (list byte)) (before : list (nat * Event))
    (t : nat) (properties : gmap string JsValue) : Prop :=
  (exists v, (t, CacheUpdated v) ∈ before) /\
  exists v, last_cache before = Some v /\ is_redaction digest v /\
            properties !! "$current_url" = Some (JStr v).

Definition ordered (digest : list byte -> option (list byte)) (l : list (nat * Event)) : Prop :=
  forall before t eventName properties after,
    l = (before ++ (t, SinkCapture eventName properties) :: after)%list ->
    recomputed_before digest before t properties.

(** What a waiting call holds: a recompute under way yields an output of the
    redaction, and a call past its recompute has written the cache. *)
Definition pending_ok
    (digest : list byte -> option (list byte)) (l : list (nat * Event))
    (t : nat) (k : Pending) : Prop :=
  match k with
  | InitUpdating _ r | CaptureUpdating _ _ r => forall v, r = Some v -> is_redaction digest v
  | InitUpdated _ | CaptureUpdated _ _ => exists v, (t, CacheUpdated v) ∈ l
  | _ => True
  end.

Record cache_inv (digest : list byte -> option (list byte)) (w : World) : Prop := {
  inv_cache : redactedCurrentLocation (this w) = last_cache (log w);
  inv_values : forall t v, (t, CacheUpdated v) ∈ log w -> is_redaction digest v;
  inv_pending : forall t k, pending w !! t = Some k -> pending_ok digest (log w) t k;
  inv_ordered : ordered digest (log w);
}.

(** No [init] and no [capture] is under way. *)
Definition no_capture_waiting (w : World) : Prop :=
  forall t k, pending w !! t = Some k ->
    match k with
    | IdentifyHashing _ | RoomHashing _ _ _ => True
    | _ => False
    end.


(** What the sink was sent under [key], capture by capture. *)
Definition sent_property (key : string) (te : nat * Event)
    : option (nat * string * option JsValue) :=
  match snd te with
  | SinkCapture eventName properties => Some (fst te, eventName, properties !! key)
  | _ => None
  end.

(** A page of the application, with and without a do-not-track signal and
    with and without a configuration of the sink. *)
Definition element_config : PosthogConfig :=
  mkPosthogConfig "phc_key" "https://posthog.element.io".
Definition tracking_env : Env := mkEnv None (Some element_config).
Definition dnt_env : Env := mkEnv (Some "1") (Some element_config).
Definition unconfigured_env : Env := mkEnv None None.
Definition room_location : Location :=
  mkLocation "https://app.element.io" "#/room/!abc123" "/".

(** The keys that [sanitizeProperties] writes. *)
Definition overwrittenKeys (a : PosthogAnalytics) : list string :=
  "$current_url" :: (if onlyTrackAnonymousEvents a then referrerKeys else []).

(** The sink has been initialised somewhere in a log. *)
Definition is_sink_init (e : Event) : bool :=
  match e with
  | SinkInit _ _ => true
  | _ => false
  end.

Definition sink_started (l : list (nat * Event)) : Prop :=
  existsb (fun te => is_sink_init (snd te)) l = true.

(** Every capture of a log comes after an initialisation of the sink. *)
Definition init_before_capture (l : list (nat * Event)) : Prop :=
  forall before t eventName properties after,
    l = (before ++ (t, SinkCapture eventName properties) :: after)%list ->
    sink_started before.

(** A [capture] is under way at this place. *)
Definition capture_waiting (k : Pending) : bool :=
  match k with
  | CaptureUpdating _ _ _ | CaptureUpdated _ _ => true
  | _ => false
  end.

Record started_inv (w : World) : Prop := {
  started_initialised : initialised (this w) = true -> sink_started (log w);
  started_pending :
    forall t k, pending w !! t = Some k -> capture_waiting k = true -> sink_started (log w);
  started_ordered : init_before_capture (log w);
}.

(** A log without a call of the sink's init or capture. *)
Definition sink_untouched (l : list (nat * Event)) : Prop :=
  Forall (fun te => is_sink_init (snd te) = false /\ is_sink_capture (snd te) = false) l.

(** The calls that take the pipeline of a page from its constructor to an
    initialised state, and a second page of the application. *)
Definition enabling : list Action := [Invoke (CInit false); Resume 0; Resume 0].
Definition home_location : Location := mkLocation "https://app.element.io" "#/home" "/".
Definition room_url : string :=
  "https://app.element.io/#/room/f9f27b73b7033c3ce2d91c00f7bb46cd9face89fd8b4de5d6e2733d3ac84a6de".


Example sha256_abc :
  hashHex sha256_digest "abc"
  = Some "ba7816bf8f01cfea414140de5dae2223b00361a396177a9cb410ff61f20015ad".
Proof. vm_compute. reflexivity. Qed.

Example sha256_empty :
  hashHex sha256_digest ""
  = Some "e3b0c44298fc1c149afbf4c8996fb92427ae41e4649b934ca495991b7852b855".
Proof. vm_compute. reflexivity. Qed.

Example sha256_two_blocks :
  hashHex sha256_digest
    "aaaaaaaaaaaaaaaaaaaaaaaaaaaaaaaaaaaaaaaaaaaaaaaaaaaaaaaa"
  = Some "b35439a4ac6f0948b6d6f9e3c6af0f5f590ce20f1bde7090ef7970686ec6738a".
Proof. vm_compute. reflexivity. Qed.

Example redact_room_pseudonymous :
  getRedactedCurrentLocation sha256_digest "https://app.element.io" "#/room/!abc123" "/" Pseudonymous
  = Some "https://app.element.io/#/room/f9f27b73b7033c3ce2d91c00f7bb46cd9face89fd8b4de5d6e2733d3ac84a6de".
Proof. vm_compute. reflexivity. Qed.

Example redact_room_anonymous :
  getRedactedCurrentLocation sha256_digest "https://app.element.io" "#/room/!abc123" "/" Anonymous
  = Some "https://app.element.io/#/room/<redacted>".
Proof. vm_compute. reflexivity. Qed.

Example redact_no_fragment :
  getRedactedCurrentLocation sha256_digest "file:///home/u" "" "/home/u/index.html" Anonymous
  = Some "file:///home/u/<redacted_file_scheme_url>//<redacted_screen_name>/".
Proof. vm_compute. reflexivity. Qed.

(** ** Splitting and joining *)

Section StringFacts.

Variable sep : ascii.

Lemma split_pieces s : Forall (fun x => Str.has sep x = false) (Str.split sep s).
Proof.
  induction s as [|c s IH]; simpl.
  - by constructor.
  - destruct (Ascii.eqb c sep) eqn:E; [by constructor|].
    destruct (Str.split sep s) as [|x xs]; [by repeat constructor; simpl; rewrite E|].
    inversion IH; subst. constructor; [|done]. simpl. by rewrite E.
Qed.

Lemma split_cons a b :
  Str.has sep a = false -> Str.split sep (a ++ String sep b) = a :: Str.split sep b.
Proof.
  induction a as [|c a IH]; simpl; intros H.
  - by rewrite Ascii.eqb_refl.
  - apply orb_false_elim in H as [E H]. by rewrite E, IH.
Qed.

Lemma split_whole a : Str.has sep a = false -> Str.split sep a = [a].
Proof.
  induction a as [|c a IH]; simpl; intros H; [done|].
  apply orb_false_elim in H as [E H]. by rewrite E, IH.
Qed.

Lemma split_join l :
  l <> [] -> Forall (fun x => Str.has sep x = false) l ->
  Str.split sep (Str.join (String sep "") l) = l.
Proof.
  induction l as [|x [|y l] IH]; intros Hne Hl; [done| |].
  - simpl. apply split_whole. by inversion Hl.
  - inversion Hl; subst.
    change (Str.join (String sep "") (x :: y :: l))
      with (x ++ String sep (Str.join (String sep "") (y :: l))).
    rewrite split_cons by done. f_equal. by apply IH.
Qed.

End StringFacts.

Lemma all_app f a b : Str.all f (a ++ b) = Str.all f a && Str.all f b.
Proof. induction a as [|c a IH]; simpl; [done|]. by rewrite IH, andb_assoc. Qed.

Lemma all_join_empty f l :
  Forall (fun x => Str.all f x = true) l -> Str.all f (Str.join "" l) = true.
Proof.
  induction l as [|x [|y l] IH]; intros Hl; [done| |].
  - by inversion Hl.
  - inversion Hl; subst.
    change (Str.join "" (x :: y :: l)) with (x ++ Str.join "" (y :: l)).
    rewrite all_app, IH by done. by rewrite andb_true_r.
Qed.

Lemma all_has f c s : Str.all f s = true -> f c = false -> Str.has c s = false.
Proof.
  induction s as [|d s IH]; simpl; intros Hs Hc; [done|].
  apply andb_prop in Hs as [Hd Hs]. rewrite IH by done.
  destruct (Ascii.eqb_spec d c) as [->|]; [congruence|done].
Qed.

Lemma ofByte_hex b : Str.all Hex.is_digit (Hex.ofByte b) = true.
Proof. destruct b; reflexivity. Qed.

Section RedactionFacts.

Variable digest : list byte -> option (list byte).

(** A digest in hexadecimal holds hexadecimal digits only. *)
Lemma hashHex_digits input h : hashHex digest input = Some h -> Str.all Hex.is_digit h = true.
Proof.
  unfold hashHex. destruct (digest _) as [buf|]; simpl; [|done].
  intros [= <-]. apply all_join_empty, Forall_forall. intros x Hx.
  apply list_elem_of_In, in_map_iff in Hx as (b & <- & _). apply ofByte_hex.
Qed.

Lemma redactParts_lookup a parts parts' i seg :
  redactParts digest a parts = Some parts' -> parts !! i = Some seg ->
  exists seg', parts' !! i = Some seg' /\
    match a with
    | Anonymous => seg' = "<redacted>"
    | Pseudonymous => hashHex digest seg = Some seg'
    end.
Proof.
  revert parts' i. induction parts as [|p ps IH]; intros parts' i Hr Hi; [done|].
  simpl in Hr.
  destruct (match a with Anonymous => _ | Pseudonymous => _ end) as [p'|] eqn:Hp; [|done].
  destruct (redactParts digest a ps) as [ps'|] eqn:Hps; [|done].
  simpl in Hr. injection Hr as <-.
  destruct i as [|i]; simpl in *.
  - injection Hi as ->. exists p'. split; [done|]. destruct a; congruence.
  - by apply IH.
Qed.

Lemma redactParts_length a parts parts' :
  redactParts digest a parts = Some parts' -> length parts' = length parts.
Proof.
  revert parts'. induction parts as [|p ps IH]; intros parts' Hr; simpl in Hr.
  - by injection Hr as <-.
  - destruct (match a with Anonymous => _ | Pseudonymous => _ end) as [p'|]; [|done].
    destruct (redactParts digest a ps) as [ps'|]; [|done].
    simpl in Hr. injection Hr as <-. simpl. f_equal. by apply IH.
Qed.

Lemma redactParts_pieces a parts parts' :
  redactParts digest a parts = Some parts' ->
  Forall (fun x => Str.has "/" x = false) parts'.
Proof.
  revert parts'. induction parts as [|p ps IH]; intros parts' Hr; simpl in Hr.
  - injection Hr as <-. constructor.
  - destruct (match a with Anonymous => _ | Pseudonymous => _ end) as [p'|] eqn:Hp; [|done].
    destruct (redactParts digest a ps) as [ps'|]; [|done].
    simpl in Hr. injection Hr as <-. constructor; [|by apply IH].
    destruct a.
    + by injection Hp as <-.
    + eapply all_has; [by eapply hashHex_digits|done].
Qed.

(** Under the Anonymous tier the loop never fails and only counts. *)
Lemma redactParts_anonymous parts :
  redactParts digest Anonymous parts = Some (repeat "<redacted>" (length parts)).
Proof. induction parts as [|p ps IH]; simpl; [done|]. by rewrite IH. Qed.

(** The output is the origin, the path component and the recomposed
    fragment, which is what the function gives for an empty origin and path. *)
Lemma getRedactedCurrentLocation_parts o h p a :
  getRedactedCurrentLocation digest o h p a
  = (hashStr ← getRedactedCurrentLocation digest "" h "" a;
     Some (o ++ pathComponent o p ++ hashStr)).
Proof.
  unfold getRedactedCurrentLocation, pathComponent.
  destruct (destructure _) as [[tok screen] parts].
  by destruct (redactParts digest a parts).
Qed.

Lemma hashStr_shape tok screen j :
  "" ++ "" ++ tok ++ "/" ++ screen ++ "/" ++ j = tok ++ String "/" (screen ++ String "/" j).
Proof. reflexivity. Qed.

(** The recomposed fragment splits back into the leading token, the screen
    field and the redacted trailing segments. *)
Lemma hashStr_split h a hashStr :
  getRedactedCurrentLocation digest "" h "" a = Some hashStr ->
  exists tok parts',
    redactParts digest a (trailingSegments h) = Some parts' /\
    Str.split "/" hashStr
    = tok :: (if knownScreens_has (screenSegment h)
              then template (screenSegment h) else "<redacted_screen_name>")
          :: (match parts' with [] => [""] | _ => parts' end).
Proof.
  unfold getRedactedCurrentLocation, destructure, trailingSegments, screenSegment.
  pose proof (split_pieces "/" h) as Hp.
  destruct (Str.split "/" h) as [|tok [|screen parts]] eqn:Hs.
  - by destruct h; simpl in Hs; repeat case_match.
  - cbn [head tail redactParts mbind option_bind knownScreens_has negb template default].
    intros [= <-]. exists tok, []. split; [done|].
    inversion Hp; subst. change (Str.startsWith "" "file://") with false.
    cbv iota. by rewrite hashStr_shape, !split_cons.
  - cbn [head tail]. inversion Hp as [|? ? Htok Hp']; subst.
    inversion Hp' as [|? ? Hscreen Hparts]; subst.
    destruct (redactParts digest a parts) as [parts'|] eqn:Hr; [|done].
    cbn [mbind option_bind]. intros [= <-]. exists tok, parts'. split; [done|].
    change (Str.startsWith "" "file://") with false. cbv iota.
    set (screen' := template (if negb _ then _ else _)).
    assert (Hscreen' : Str.has "/" screen' = false).
    { unfold screen'. by destruct (bool_decide _). }
    assert (screen' = if knownScreens_has (Some screen)
                      then template (Some screen) else "<redacted_screen_name>") as <-.
    { unfold screen'. cbn [knownScreens_has]. by destruct (bool_decide _). }
    cbn [template default]. rewrite hashStr_shape, !split_cons by done. do 2 f_equal.
    destruct parts' as [|x xs]; [done|].
    apply split_join; [done|]. by eapply redactParts_pieces.
Qed.

Lemma redactParts_returns a parts :
  a = Anonymous \/ Forall (fun seg => is_Some (hashHex digest seg)) parts ->
  is_Some (redactParts digest a parts).
Proof.
  intros [->|H]; [rewrite redactParts_anonymous; by eexists|].
  induction H as [|p ps [p' Hp] _ [ps' IH]]; simpl; [by eexists|].
  destruct a; [|rewrite Hp]; rewrite IH; by eexists.
Qed.

Lemma getRedactedCurrentLocation_returns o h p a :
  digestible digest a h -> is_Some (getRedactedCurrentLocation digest o h p a).
Proof.
  intros H. apply redactParts_returns in H as [parts' H].
  unfold getRedactedCurrentLocation, destructure. fold (trailingSegments h).
  rewrite H. by eexists.
Qed.

Lemma take_2_heads (l l' : list string) :
  take 2 l' = take 2 l -> head l' = head l /\ head (tail l') = head (tail l).
Proof. destruct l as [|x [|y l]], l' as [|x' [|y' l']]; simpl; intros [= ]; by subst. Qed.

(** C2, as amended: every trailing segment of the fragment is replaced, in its
    place in the output, by the marker under the Anonymous tier and by its
    hexadecimal digest under the Pseudonymous tier; under the Anonymous tier
    the output does not depend on the values of the trailing segments, only on
    how many there are. *)
Theorem trailing_segments_redacted o h p a :
  digestible digest a h ->
  exists out hashStr,
    getRedactedCurrentLocation digest o h p a = Some out /\
    out = o ++ pathComponent o p ++ hashStr /\
    (forall i seg, trailingSegments h !! i = Some seg ->
       exists seg', Str.split "/" hashStr !! (2 + i)%nat = Some seg' /\
         match a with
         | Anonymous => seg' = "<redacted>"
         | Pseudonymous => hashHex digest seg = Some seg'
         end) /\
    (a = Anonymous ->
     forall h', take 2 (Str.split "/" h') = take 2 (Str.split "/" h) ->
       length (trailingSegments h') = length (trailingSegments h) ->
       getRedactedCurrentLocation digest o h' p Anonymous = Some out).
Proof.
  intros Hd. destruct (getRedactedCurrentLocation_returns o h p a Hd) as [out Hout].
  pose proof Hout as Hparts. rewrite getRedactedCurrentLocation_parts in Hparts.
  destruct (getRedactedCurrentLocation digest "" h "" a) as [hashStr|] eqn:Hh; [|done].
  injection Hparts as <-. exists (o ++ pathComponent o p ++ hashStr), hashStr.
  repeat split; [done| |].
  - intros i seg Hi. apply hashStr_split in Hh as (tok & parts' & Hr & ->).
    destruct (redactParts_lookup _ _ _ _ _ Hr Hi) as (seg' & Hi' & Hseg).
    exists seg'. split; [|done]. simpl. by destruct parts'.
  - intros -> h' Ht Hl. rewrite <- Hout.
    unfold getRedactedCurrentLocation, destructure. fold (trailingSegments h') (trailingSegments h).
    apply take_2_heads in Ht as [-> ->].
    by rewrite !redactParts_anonymous, Hl.
Qed.

(** C7: when the screen-name segment of the fragment is not a known screen
    (or is missing), the screen field of the output is the placeholder,
    whatever the tier; when it is a known screen, the field is the screen
    name itself. *)
Theorem screen_field_redacted o h p a :
  digestible digest a h ->
  exists out hashStr,
    getRedactedCurrentLocation digest o h p a = Some out /\
    out = o ++ pathComponent o p ++ hashStr /\
    Str.split "/" hashStr !! 1%nat =
      Some (match screenSegment h with
            | Some screen =>
                if bool_decide (screen ∈ knownScreens) then screen else "<redacted_screen_name>"
            | None => "<redacted_screen_name>"
            end).
Proof.
  intros Hd. destruct (getRedactedCurrentLocation_returns o h p a Hd) as [out Hout].
  pose proof Hout as Hparts. rewrite getRedactedCurrentLocation_parts in Hparts.
  destruct (getRedactedCurrentLocation digest "" h "" a) as [hashStr|] eqn:Hh; [|done].
  injection Hparts as <-. exists (o ++ pathComponent o p ++ hashStr), hashStr.
  repeat split; [done|].
  apply hashStr_split in Hh as (tok & parts' & _ & ->). simpl.
  destruct (screenSegment h) as [screen|]; [|done]. simpl. by destruct (bool_decide _).
Qed.

(** C8: when the origin starts with "file://", the path component of the
    output is the placeholder "/<redacted_file_scheme_url>/", whatever the
    tier and whatever the pathname: the output is the same for every
    pathname. *)
Theorem file_origin_path_redacted o h p a :
  Str.startsWith o "file://" = true ->
  digestible digest a h ->
  exists out hashStr,
    getRedactedCurrentLocation digest o h p a = Some out /\
    getRedactedCurrentLocation digest "" h "" a = Some hashStr /\
    out = o ++ "/<redacted_file_scheme_url>/" ++ hashStr /\
    (forall p', getRedactedCurrentLocation digest o h p' a = Some out).
Proof.
  intros Hf Hd. destruct (getRedactedCurrentLocation_returns o h p a Hd) as [out Hout].
  pose proof Hout as Hparts. rewrite getRedactedCurrentLocation_parts in Hparts.
  destruct (getRedactedCurrentLocation digest "" h "" a) as [hashStr|] eqn:Hh; [|done].
  injection Hparts as <-. unfold pathComponent in *. rewrite Hf in *.
  exists (o ++ "/<redacted_file_scheme_url>/" ++ hashStr), hashStr.
  repeat split; [done|]. intros p'.
  rewrite getRedactedCurrentLocation_parts, Hh. unfold pathComponent. by rewrite Hf.
Qed.

End RedactionFacts.

(** ** The sanitize hook *)

(** C10: [sanitizeProperties] changes at most [$current_url] and the five
    referrer and device keys: [$current_url] becomes the cached location, the
    five keys become null exactly when [onlyTrackAnonymousEvents] is set and
    are left as they are otherwise, and every other key is left as it is. *)
Theorem sanitizeProperties_lookup (a : PosthogAnalytics) (properties : gmap string JsValue)
    (k : string) :
  sanitizeProperties a properties !! k =
    if decide (k = "$current_url") then Some (of_cache (redactedCurrentLocation a))
    else if decide (k ∈ referrerKeys) then
      if onlyTrackAnonymousEvents a then Some JNull else properties !! k
    else properties !! k.
Proof.
  unfold sanitizeProperties, referrerKeys.
  destruct (onlyTrackAnonymousEvents a); repeat case_decide; subst;
    rewrite ?lookup_insert; repeat case_decide; subst; try done;
    repeat match goal with
    | H : _ ∈ _ :: _ |- _ => apply elem_of_cons in H as [->|H]
    | H : _ ∈ [] |- _ => by apply elem_of_nil in H
    | H : ?k ∉ _ |- _ => exfalso; apply H; set_solver
    end; try done.
Qed.

(** ** Runs of the pipeline *)

Ltac world :=
  unfold step, invoke, resume, trackRoomEvent_end, trackPseudonymousEvent, trackAnonymousEvent,
    capture, posthog_capture, updateRedactedCurrentLocation_end,
    updateRedactedCurrentLocation_begin, emit, suspend, retire, with_this, fresh_call, navigate,
    set_onlyTrackAnonymousEvents, set_initialised, set_redactedCurrentLocation in *;
  cbn [this location pending next_call log negb
       onlyTrackAnonymousEvents initialised redactedCurrentLocation] in *.

Lemma events_of_app t (l l' : list (nat * Event)) :
  events_of t (l ++ l')%list = (events_of t l ++ events_of t l')%list.
Proof. apply omap_app. Qed.

Lemma events_of_one t t' e :
  events_of t [(t', e)] = if decide (t' = t) then [e] else [].
Proof.
  unfold events_of. simpl. case_decide.
  - subst. by rewrite Nat.eqb_refl.
  - by apply Nat.eqb_neq in H as ->.
Qed.

Section RunFacts.

Variable digest : list byte -> option (list byte).
Variable sink : Location -> string -> gmap string JsValue -> gmap string JsValue.
Variable env : Env.

Lemma run_app acts acts' w :
  run digest sink env (acts ++ acts') w = run digest sink env acts' (run digest sink env acts w).
Proof. apply fold_left_app. Qed.

Lemma run_cons a acts w :
  run digest sink env (a :: acts) w = run digest sink env acts (step digest sink env w a).
Proof. done. Qed.

(** A step touches the waiting place and the events of one call only. *)
Lemma step_frame w a t :
  t <> actor w a ->
  events_of t (log (step digest sink env w a)) = events_of t (log w) /\
  pending (step digest sink env w a) !! t = pending w !! t.
Proof.
  intros Ht. destruct a as [c|t'|loc]; simpl in Ht; world; [| |done].
  - destruct c; repeat case_match; world;
      rewrite ?events_of_app, ?events_of_one, ?lookup_insert_ne by done;
      repeat case_decide; try done; by rewrite ?app_nil_r.
  - repeat case_match; world;
      rewrite ?events_of_app, ?events_of_one, ?lookup_insert_ne, ?lookup_delete_ne by done;
      repeat case_decide; try done; by rewrite ?app_nil_r.
Qed.

Lemma step_next_call w a :
  next_call w <= next_call (step digest sink env w a).
Proof.
  destruct a as [c|t'|loc]; world; [| |done].
  - destruct c; repeat case_match; world; lia.
  - repeat case_match; world; lia.
Qed.

Lemma step_wf w a : wf w -> wf (step digest sink env w a).
Proof.
  intros Hw t Ht. pose proof (step_next_call w a) as Hn.
  destruct (decide (t = actor w a)) as [->|Hne].
  - destruct a as [c|t'|loc]; simpl in *.
    + exfalso. clear Hn. revert Ht. world. destruct c; repeat case_match; world; lia.
    + destruct (Hw t' ltac:(lia)) as [Hp He]. unfold resume. by rewrite Hp.
    + apply Hw. simpl in Ht. lia.
  - destruct (step_frame w a t Hne) as [-> ->]. apply Hw. lia.
Qed.

Lemma run_wf acts w : wf w -> wf (run digest sink env acts w).
Proof. revert w. induction acts as [|a acts IH]; intros w Hw; [done|]. apply IH, step_wf, Hw. Qed.

Lemma initial_wf loc : wf (initial loc).
Proof. intros t _. by split. Qed.

(** A call that waits stays as it is until it is resumed. *)
Lemma run_waiting acts w t :
  wf w -> t < next_call w -> Resume t ∉ acts ->
  events_of t (log (run digest sink env acts w)) = events_of t (log w) /\
  pending (run digest sink env acts w) !! t = pending w !! t /\
  t < next_call (run digest sink env acts w).
Proof.
  revert w. induction acts as [|a acts IH]; intros w Hw Ht Hr; [done|].
  apply not_elem_of_cons in Hr as [Ha Hr]. rewrite run_cons.
  assert (t <> actor w a) as Hne.
  { destruct a; simpl; [lia|congruence|lia]. }
  destruct (step_frame w a t Hne) as [<- <-].
  apply IH; [by apply step_wf| |done]. pose proof (step_next_call w a). lia.
Qed.

(** A call that does not wait has finished: it does nothing more. *)
Lemma run_finished acts w t :
  wf w -> t < next_call w -> pending w !! t = None ->
  events_of t (log (run digest sink env acts w)) = events_of t (log w).
Proof.
  revert w. induction acts as [|a acts IH]; intros w Hw Ht Hp; [done|].
  rewrite run_cons. pose proof (step_next_call w a) as Hn.
  destruct (decide (t = actor w a)) as [->|Hne].
  - destruct a as [c|t'|loc]; simpl in *; [lia| |lia].
    unfold resume. rewrite Hp. by apply IH.
  - destruct (step_frame w a t Hne) as [<- Hp'].
    apply IH; [by apply step_wf|lia|congruence].
Qed.

(** The first time a call is resumed. *)
Lemma first_resume acts t :
  Resume t ∈ acts ->
  exists pre post, acts = (pre ++ Resume t :: post)%list /\ Resume t ∉ pre.
Proof.
  induction acts as [|a acts IH]; intros H; [by apply elem_of_nil in H|].
  assert (a = Resume t \/ a <> Resume t) as [->|Hne].
  { destruct a as [c|t'|loc]; [by right| |by right].
    destruct (decide (t' = t)) as [->|]; [by left|right; congruence]. }
  - exists [], acts. split; [done|]. apply not_elem_of_nil.
  - apply elem_of_cons in H as [H|H]; [congruence|].
    destruct (IH H) as (pre & post & -> & Hpre).
    exists (a :: pre), post. split; [done|]. apply not_elem_of_cons. split; congruence.
Qed.

Lemma resume_last w t k evs :
  pending w !! t = Some k -> last_events k = Some evs ->
  events_of t (log (resume digest sink t w)) = (events_of t (log w) ++ evs)%list /\
  pending (resume digest sink t w) !! t = None.
Proof.
  intros Hp Hk. unfold resume. rewrite Hp.
  destruct k as [cfg [v|]|cfg|n p [v|]|n p|[h|]|n p [h|]]; simplify_eq/=; world;
    rewrite ?events_of_app, ?events_of_one, ?decide_True, ?lookup_delete_eq by done;
    by rewrite <- ?app_assoc.
Qed.

(** A call that waits for a digest alone, once resumed, has done what the
    place says and nothing else. *)
Lemma run_last acts w t k evs :
  wf w -> t < next_call w -> pending w !! t = Some k -> last_events k = Some evs ->
  Resume t ∈ acts ->
  events_of t (log (run digest sink env acts w)) = (events_of t (log w) ++ evs)%list.
Proof.
  intros Hw Ht Hp Hk Hr. apply first_resume in Hr as (pre & post & -> & Hpre).
  rewrite run_app, run_cons.
  destruct (run_waiting pre w t Hw Ht Hpre) as (He & Hp' & Ht').
  rewrite Hp in Hp'. destruct (resume_last _ t k evs Hp' Hk) as [He' Hp''].
  pose proof (run_wf pre w Hw) as Hw'.
  rewrite run_finished; [by rewrite <- He| | |done].
  - by apply (step_wf _ (Resume t)).
  - pose proof (step_next_call (run digest sink env pre w) (Resume t)). simpl in *. lia.
Qed.

(** What [identifyUser] does when it is called. *)
Lemma invoke_identifyUser w userId :
  wf w ->
  let w1 := step digest sink env w (Invoke (CIdentifyUser userId)) in
  wf w1 /\ next_call w < next_call w1 /\
  if onlyTrackAnonymousEvents (this w)
  then events_of (next_call w) (log w1) = [Fulfilled] /\ pending w1 !! next_call w = None
  else events_of (next_call w) (log w1) = [] /\
       pending w1 !! next_call w = Some (IdentifyHashing (hashHex digest userId)).
Proof.
  intros Hw w1. split; [by apply step_wf|].
  destruct (Hw (next_call w) ltac:(lia)) as [Hp He].
  subst w1. world. destruct (onlyTrackAnonymousEvents (this w)); world.
  - rewrite events_of_app, events_of_one, He, decide_True by done. auto with lia.
  - rewrite lookup_insert_eq. auto with lia.
Qed.

(** What [trackRoomEvent] does when it is called with a room id. *)
Lemma invoke_trackRoomEvent w eventName roomId properties :
  wf w -> roomId <> "" ->
  let w1 := step digest sink env w (Invoke (CTrackRoomEvent eventName roomId properties)) in
  wf w1 /\ next_call w < next_call w1 /\
  events_of (next_call w) (log w1) = [] /\
  pending w1 !! next_call w = Some (RoomHashing eventName properties (hashHex digest roomId)).
Proof.
  intros Hw Hr w1. split; [by apply step_wf|].
  destruct (Hw (next_call w) ltac:(lia)) as [Hp He].
  subst w1. world. apply String.eqb_neq in Hr as ->. world.
  rewrite lookup_insert_eq. auto with lia.
Qed.

(** What [trackAnonymousEvent] does when it is called on an initialised
    pipeline. *)
Lemma invoke_trackAnonymousEvent w eventName properties :
  wf w -> initialised (this w) = true ->
  let w1 := step digest sink env w (Invoke (CTrackAnonymousEvent eventName properties)) in
  wf w1 /\ next_call w < next_call w1 /\
  events_of (next_call w) (log w1) = [Fulfilled] /\
  pending w1 !! next_call w
  = Some (CaptureUpdating eventName properties (updateRedactedCurrentLocation_begin digest w)).
Proof.
  intros Hw Hi w1. split; [by apply step_wf|].
  destruct (Hw (next_call w) ltac:(lia)) as [Hp He].
  subst w1. world. rewrite Hi. world.
  rewrite events_of_app, events_of_one, He, decide_True, lookup_insert_eq by done.
  auto with lia.
Qed.

(** C6: [identifyUser] called while [onlyTrackAnonymousEvents] is set never
    calls the sink; called while it is not set, once its digest is there, it
    calls the sink's identify once, with the hexadecimal digest of the user
    id (made of hexadecimal digits only), and calls the sink for nothing
    else. *)
Theorem identifyUser_identifies loc acts0 userId acts :
  let w := run digest sink env acts0 (initial loc) in
  let w' := run digest sink env (Invoke (CIdentifyUser userId) :: acts) w in
  let sink_calls := List.filter is_sink_call (events_of (next_call w) (log w')) in
  (onlyTrackAnonymousEvents (this w) = true -> sink_calls = []) /\
  (onlyTrackAnonymousEvents (this w) = false ->
   forall h, hashHex digest userId = Some h ->
     Str.all Hex.is_digit h = true /\
     (Resume (next_call w) ∈ acts -> sink_calls = [SinkIdentify h]) /\
     (Resume (next_call w) ∉ acts -> sink_calls = [])).
Proof.
  intros w w' sink_calls. subst sink_calls w'. rewrite run_cons.
  assert (wf w) as Hw by apply run_wf, initial_wf.
  destruct (invoke_identifyUser w userId Hw) as (Hw1 & Hn & H).
  split; intros Hflag; rewrite Hflag in H; destruct H as [He Hp].
  - rewrite run_finished by done. by rewrite He.
  - intros h Hh. rewrite Hh in Hp. split; [by eapply hashHex_digits|]. split; intros Hr.
    + erewrite run_last by done. by rewrite He.
    + destruct (run_waiting acts _ _ Hw1 Hn Hr) as (-> & _). by rewrite He.
Qed.

Lemma step_aborts_cleanly w a t :
  wf w -> aborts_cleanly w t -> aborts_cleanly (step digest sink env w a) t.
Proof.
  intros Hw. unfold aborts_cleanly.
  destruct (decide (t = actor w a)) as [->|Hne];
    [|by destruct (step_frame w a t Hne) as [-> ->]].
  destruct a as [c|t|loc]; simpl actor; [| |done].
  - destruct (Hw (next_call w) ltac:(lia)) as [Hp He]. intros _.
    destruct c; world; repeat case_match; world;
      rewrite ?events_of_app, ?events_of_one, ?He, ?decide_True by done; simpl;
      rewrite ?Hp; split; try done; by intros [? [=]].
  - intros [Hq Hf]. unfold step, resume.
    destruct (pending w !! t) as [k|] eqn:Hk;
      [|rewrite Hk; split; [by intros [? [=]]|done]].
    destruct Hq as [Hs Hf']; [by eexists|].
    destruct k as [cfg [v|]|cfg|n p [v|]|n p|[h|]|n p [h|]]; world; repeat case_match; world;
      rewrite ?events_of_app, ?events_of_one, ?decide_True, ?existsb_app, ?Hs, ?Hf',
        ?lookup_delete_eq by done; simpl;
      split; try done; by intros [? [=]].
Qed.

Lemma run_aborts_cleanly acts w t :
  wf w -> aborts_cleanly w t -> aborts_cleanly (run digest sink env acts w) t.
Proof.
  revert w. induction acts as [|a acts IH]; intros w Hw H; [done|].
  rewrite run_cons. apply IH; [by apply step_wf|by apply step_aborts_cleanly].
Qed.

(** C5, as amended: a call whose digest fails sends nothing to the sink, and
    the failure is not caught: [identifyUser] and [trackRoomEvent] hand it
    to their caller as a rejected promise, and inside [capture] it rejects
    the promise of [capture], which nobody awaits. *)
Theorem digest_failure_rejects loc acts0 acts :
  let w := run digest sink env acts0 (initial loc) in
  let t := next_call w in
  (forall t', existsb is_failure (events_of t' (log w)) = true ->
     existsb is_sink_call (events_of t' (log w)) = false) /\
  (forall userId,
     onlyTrackAnonymousEvents (this w) = false -> hashHex digest userId = None ->
     Resume t ∈ acts ->
     events_of t (log (run digest sink env (Invoke (CIdentifyUser userId) :: acts) w))
     = [Rejected]) /\
  (forall eventName roomId properties,
     roomId <> "" -> hashHex digest roomId = None -> Resume t ∈ acts ->
     events_of t (log (run digest sink env
                         (Invoke (CTrackRoomEvent eventName roomId properties) :: acts) w))
     = [Rejected]) /\
  (forall eventName properties,
     initialised (this w) = true -> updateRedactedCurrentLocation_begin digest w = None ->
     Resume t ∈ acts ->
     events_of t (log (run digest sink env
                         (Invoke (CTrackAnonymousEvent eventName properties) :: acts) w))
     = [Fulfilled; UnhandledRejection]).
Proof.
  intros w t. subst t. assert (wf w) as Hw by apply run_wf, initial_wf.
  split; [|split; [|split]].
  - intros t'. apply (run_aborts_cleanly acts0 (initial loc) t'); [apply initial_wf|].
    split; [by intros [? [=]]|done].
  - intros userId Hflag Hh Hr. rewrite run_cons.
    destruct (invoke_identifyUser w userId Hw) as (Hw1 & Hn & H).
    rewrite Hflag, Hh in H. destruct H as [He Hp].
    erewrite run_last by done. by rewrite He.
  - intros eventName roomId properties Hroom Hh Hr. rewrite run_cons.
    destruct (invoke_trackRoomEvent w eventName roomId properties Hw Hroom) as (Hw1 & Hn & He & Hp).
    rewrite Hh in Hp. erewrite run_last by done. by rewrite He.
  - intros eventName properties Hi Hu Hr. rewrite run_cons.
    destruct (invoke_trackAnonymousEvent w eventName properties Hw Hi) as (Hw1 & Hn & He & Hp).
    rewrite Hu in Hp. erewrite run_last by done. by rewrite He.
Qed.

End RunFacts.

(** ** The cache is written before the sink reads it *)

Lemma last_cache_snoc l t e :
  last_cache (l ++ [(t, e)]) = match e with CacheUpdated v => Some v | _ => last_cache l end.
Proof. unfold last_cache. by rewrite fold_left_app. Qed.

Lemma last_cache_elem l v : last_cache l = Some v -> exists t, (t, CacheUpdated v) ∈ l.
Proof.
  induction l as [|[t e] l IH] using rev_ind; [done|].
  rewrite last_cache_snoc. intros H.
  assert ((exists t', (t', CacheUpdated v) ∈ l) -> exists t', (t', CacheUpdated v) ∈ (l ++ [(t, e)])%list)
    as Hl by (intros [t' Ht']; exists t'; set_solver).
  destruct e; auto. injection H as ->. exists t. set_solver.
Qed.

Lemma elem_last_cache l t v : (t, CacheUpdated v) ∈ l -> is_Some (last_cache l).
Proof.
  induction l as [|[t' e] l IH] using rev_ind; [by intros ?%elem_of_nil|].
  rewrite last_cache_snoc, elem_of_app, list_elem_of_singleton. intros [H|H].
  - destruct e; by eauto.
  - injection H as <- <-. by eexists.
Qed.

Lemma sanitizeProperties_current_url (a : PosthogAnalytics) (properties : gmap string JsValue) :
  sanitizeProperties a properties !! "$current_url"
  = Some (of_cache (redactedCurrentLocation a)).
Proof.
  unfold sanitizeProperties. destruct (onlyTrackAnonymousEvents a);
    rewrite ?lookup_insert_ne by done; apply lookup_insert_eq.
Qed.

Section CacheFacts.

Variable digest : list byte -> option (list byte).
Variable sink : Location -> string -> gmap string JsValue -> gmap string JsValue.
Variable env : Env.

Lemma ordered_snoc l t e :
  ordered digest l ->
  (forall eventName properties,
     e = SinkCapture eventName properties -> recomputed_before digest l t properties) ->
  ordered digest (l ++ [(t, e)]).
Proof.
  intros Hl He before t' n p after Heq.
  destruct after as [|x after _] using rev_ind.
  - apply app_inj_tail in Heq as [<- [= <- ->]]. by eapply He.
  - rewrite app_comm_cons, app_assoc in Heq. apply app_inj_tail in Heq as [-> _].
    by eapply Hl.
Qed.

Lemma pending_ok_mono l l' t k :
  pending_ok digest l t k -> pending_ok digest (l ++ l') t k.
Proof. destruct k; simpl; try done; intros [v Hv]; exists v; set_solver. Qed.

Lemma inv_emit w t e :
  cache_inv digest w ->
  (forall v, e <> CacheUpdated v) -> (forall n p, e <> SinkCapture n p) ->
  cache_inv digest (emit t e w).
Proof.
  intros [H1 H2 H3 H4] Hc Hs. split; world.
  - rewrite last_cache_snoc, H1. destruct e; try done. by edestruct Hc.
  - intros t' v [H|H%list_elem_of_singleton]%elem_of_app; [by eapply H2|].
    injection H as -> <-. by edestruct Hc.
  - intros t' k Hk. by apply pending_ok_mono, H3.
  - apply ordered_snoc; [done|]. intros n p ->. by edestruct Hs.
Qed.

Lemma inv_with_this w f :
  cache_inv digest w ->
  (forall a, redactedCurrentLocation (f a) = redactedCurrentLocation a) ->
  cache_inv digest (with_this f w).
Proof. intros [H1 H2 H3 H4] Hf. split; world; try done. by rewrite Hf. Qed.

Lemma inv_suspend w t k :
  cache_inv digest w -> pending_ok digest (log w) t k -> cache_inv digest (suspend t k w).
Proof.
  intros [H1 H2 H3 H4] Hk. split; world; try done.
  intros t' k'. rewrite lookup_insert. case_decide; [|by apply H3].
  subst. by intros [= <-].
Qed.

Lemma inv_retire w t : cache_inv digest w -> cache_inv digest (retire t w).
Proof.
  intros [H1 H2 H3 H4]. split; world; try done.
  intros t' k'. rewrite lookup_delete. case_decide; [done|by apply H3].
Qed.

Lemma inv_fresh_call w : cache_inv digest w -> cache_inv digest (fresh_call w).
Proof. by intros [H1 H2 H3 H4]. Qed.

Lemma inv_navigate w loc : cache_inv digest w -> cache_inv digest (navigate loc w).
Proof. by intros [H1 H2 H3 H4]. Qed.

Lemma inv_update_end w t v :
  cache_inv digest w -> is_redaction digest v ->
  cache_inv digest (updateRedactedCurrentLocation_end t v w).
Proof.
  intros [H1 H2 H3 H4] Hv. split; world.
  - by rewrite last_cache_snoc.
  - intros t' v' [H|H%list_elem_of_singleton]%elem_of_app; [by eapply H2|].
    by injection H as -> ->.
  - intros t' k Hk. by apply pending_ok_mono, H3.
  - by apply ordered_snoc.
Qed.

Lemma update_end_written w t v :
  exists v', (t, CacheUpdated v') ∈ log (updateRedactedCurrentLocation_end t v w).
Proof. exists v. world. set_solver. Qed.

Lemma inv_posthog_capture w t eventName properties :
  cache_inv digest w -> (exists v, (t, CacheUpdated v) ∈ log w) ->
  cache_inv digest (posthog_capture sink t eventName properties w).
Proof.
  intros [H1 H2 H3 H4] [v Hv]. split; world.
  - by rewrite last_cache_snoc.
  - intros t' v' [H|H%list_elem_of_singleton]%elem_of_app; [by eapply H2|done].
  - intros t' k Hk. by apply pending_ok_mono, H3.
  - apply ordered_snoc; [done|]. intros n p [= <- <-]. split; [by exists v|].
    destruct (elem_last_cache _ _ _ Hv) as [c Hc]. exists c. split; [done|].
    destruct (last_cache_elem _ _ Hc) as [t' Ht']. split; [by eapply H2|].
    by rewrite sanitizeProperties_current_url, H1, Hc.
Qed.

Lemma update_begin_ok w v :
  updateRedactedCurrentLocation_begin digest w = Some v -> is_redaction digest v.
Proof. intros H. by repeat eexists. Qed.

Lemma inv_capture w t eventName properties anonymity :
  cache_inv digest w -> cache_inv digest (capture digest t eventName properties anonymity w).
Proof.
  intros H. unfold capture. case_match; [done|].
  apply inv_suspend; [done|]. intros v. apply update_begin_ok.
Qed.

Lemma inv_trackPseudonymousEvent w t eventName properties :
  cache_inv digest w -> cache_inv digest (trackPseudonymousEvent digest t eventName properties w).
Proof. intros H. unfold trackPseudonymousEvent. case_match; [done|by apply inv_capture]. Qed.

Lemma inv_trackRoomEvent_end w t eventName properties hashedRoomId :
  cache_inv digest w ->
  cache_inv digest (trackRoomEvent_end digest t eventName properties hashedRoomId w).
Proof.
  intros H. unfold trackRoomEvent_end. apply inv_emit; [|done..].
  by apply inv_trackPseudonymousEvent.
Qed.

Lemma step_cache_inv w a : cache_inv digest w -> cache_inv digest (step digest sink env w a).
Proof.
  intros H. destruct a as [c|t|loc]; simpl; [| |by apply inv_navigate].
  - unfold invoke. apply inv_fresh_call in H. revert H.
    generalize (fresh_call w). intros w1 H.
    destruct c; repeat case_match;
      repeat first
        [ done
        | apply inv_emit; [|done..]
        | apply inv_with_this; [|done]
        | apply inv_suspend; [|by (try done; intros v; apply update_begin_ok)]
        | apply inv_capture
        | apply inv_trackPseudonymousEvent
        | apply inv_trackRoomEvent_end ].
  - unfold resume. destruct (pending w !! t) as [k|] eqn:Hk; [|done].
    pose proof (inv_pending _ _ H t k Hk) as Hok. apply (inv_retire _ t) in H. revert H.
    change (log w) with (log (retire t w)) in Hok. generalize dependent (retire t w).
    intros w1 Hok H.
    destruct k as [cfg [v|]|cfg|n p [v|]|n p|[h|]|n p [h|]]; simpl in Hok;
      repeat first
        [ done
        | apply inv_trackRoomEvent_end
        | apply inv_emit; [|done..]
        | apply inv_with_this; [|done]
        | apply inv_suspend; [|by apply update_end_written]
        | apply inv_update_end; [|by apply Hok]
        | apply inv_posthog_capture; [|by (destruct Hok as [v' Hv']; exists v'; world; set_solver)] ].
Qed.

Lemma initial_cache_inv loc : cache_inv digest (initial loc).
Proof.
  split; simpl; try done.
  - by intros t v ?%elem_of_nil.
  - intros before t n p after H. by destruct before.
Qed.

(** C1: whenever the sink's capture is called, for a track call or for the
    pageview that [init] triggers, the call has already written the cache, and
    the location that the hook puts in the event is the value of the cache, an
    output of the redaction: never absent, never the raw location. *)
Theorem capture_after_recompute loc acts before t eventName properties after :
  log (run digest sink env acts (initial loc))
  = (before ++ (t, SinkCapture eventName properties) :: after)%list ->
  (exists v, (t, CacheUpdated v) ∈ before) /\
  exists v, last_cache before = Some v /\ is_redaction digest v /\
            properties !! "$current_url" = Some (JStr v).
Proof.
  assert (cache_inv digest (run digest sink env acts (initial loc))) as H.
  { generalize (initial_cache_inv loc). generalize (initial loc).
    induction acts as [|a acts IH]; intros w Hw; [done|].
    apply IH. by apply step_cache_inv. }
  intros Heq. by eapply (inv_ordered _ _ H).
Qed.

End CacheFacts.

(** ** Do-not-track and the disabled pipeline *)


Section DisabledFacts.

Variable digest : list byte -> option (list byte).
Variable sink : Location -> string -> gmap string JsValue -> gmap string JsValue.




End DisabledFacts.

(** ** The pipeline on a page of the application *)

Lemma sha256_digestible a h : digestible sha256_digest a h.
Proof.
  right. apply Forall_forall. intros seg _. unfold hashHex, sha256_digest. by eexists.
Qed.


(** C2, as stated, fails: on the fragment "#/room/room" the trailing segment
    is "room", and the Anonymous output still contains "room", the screen
    name. *)
Lemma anonymous_output_contains_segment :
  "room" ∈ trailingSegments "#/room/room" /\
  getRedactedCurrentLocation sha256_digest "https://app.element.io" "#/room/room" "/" Anonymous
  = Some "https://app.element.io/#/room/<redacted>" /\
  Str.includes "https://app.element.io/#/room/<redacted>" "room" = true.
Proof. split; [|split]; vm_compute; [constructor|reflexivity|reflexivity]. Qed.

Lemma trailing_segments_redacted_witness :
  digestible sha256_digest Pseudonymous "#/room/!abc123" /\
  exists out hashStr,
    getRedactedCurrentLocation sha256_digest "https://app.element.io" "#/room/!abc123" "/"
      Pseudonymous = Some out /\
    out = "https://app.element.io" ++ pathComponent "https://app.element.io" "/" ++ hashStr /\
    (forall i seg, trailingSegments "#/room/!abc123" !! i = Some seg ->
       exists seg', Str.split "/" hashStr !! (2 + i)%nat = Some seg' /\
                    hashHex sha256_digest seg = Some seg') /\
    (Pseudonymous = Anonymous ->
     forall h', take 2 (Str.split "/" h') = take 2 (Str.split "/" "#/room/!abc123") ->
       length (trailingSegments h') = length (trailingSegments "#/room/!abc123") ->
       getRedactedCurrentLocation sha256_digest "https://app.element.io" h' "/" Anonymous
       = Some out).
Proof.
  split; [apply sha256_digestible|].
  apply (trailing_segments_redacted sha256_digest "https://app.element.io" "#/room/!abc123" "/"
           Pseudonymous).
  apply sha256_digestible.
Defined.

Lemma screen_field_redacted_witness :
  digestible sha256_digest Pseudonymous "#/secret_screen/x" /\
  exists out hashStr,
    getRedactedCurrentLocation sha256_digest "https://app.element.io" "#/secret_screen/x" "/"
      Pseudonymous = Some out /\
    out = "https://app.element.io" ++ pathComponent "https://app.element.io" "/" ++ hashStr /\
    Str.split "/" hashStr !! 1%nat = Some "<redacted_screen_name>".
Proof.
  split; [apply sha256_digestible|].
  apply (screen_field_redacted sha256_digest "https://app.element.io" "#/secret_screen/x" "/"
           Pseudonymous).
  apply sha256_digestible.
Defined.

Lemma file_origin_path_redacted_witness :
  Str.startsWith "file://" "file://" = true /\
  exists out hashStr,
    getRedactedCurrentLocation sha256_digest "file://" "#/room/!abc123"
      "/home/alice/element/index.html" Pseudonymous = Some out /\
    getRedactedCurrentLocation sha256_digest "" "#/room/!abc123" "" Pseudonymous = Some hashStr /\
    out = "file://" ++ "/<redacted_file_scheme_url>/" ++ hashStr /\
    (forall p', getRedactedCurrentLocation sha256_digest "file://" "#/room/!abc123" p'
                  Pseudonymous = Some out).
Proof.
  split; [reflexivity|].
  apply (file_origin_path_redacted sha256_digest "file://" "#/room/!abc123"
           "/home/alice/element/index.html" Pseudonymous).
  - reflexivity.
  - apply sha256_digestible.
Defined.

Lemma capture_after_recompute_witness :
  let url := "https://app.element.io/#/room/f9f27b73b7033c3ce2d91c00f7bb46cd9face89fd8b4de5d6e2733d3ac84a6de" in
  let before := [(0, CacheUpdated url); (0, SinkInit "phc_key" "https://posthog.element.io")] in
  let properties :=
    sanitizeProperties (mkThis false false (Some url))
      (posthog_properties room_location "$pageview" ∅) in
  (exists v, (0, CacheUpdated v) ∈ before) /\
  exists v, last_cache before = Some v /\ is_redaction sha256_digest v /\
            properties !! "$current_url" = Some (JStr v).
Proof.
  intros url before properties.
  apply (capture_after_recompute sha256_digest posthog_properties tracking_env room_location
           [Invoke (CInit false); Resume 0; Resume 0]
           before 0 "$pageview" properties [(0, Fulfilled)]).
  vm_compute. reflexivity.
Defined.

Lemma identifyUser_identifies_witness :
  List.filter is_sink_call
    (events_of 0 (log (run sha256_digest posthog_properties tracking_env
                         [Invoke (CIdentifyUser "@alice:example.org"); Resume 0]
                         (initial room_location))))
  = [SinkIdentify "86f01aef21b1acd3f7722fa5c5e3ad09f683388edd2fe494435839da18bb166f"].
Proof.
  destruct (identifyUser_identifies sha256_digest posthog_properties tracking_env room_location
              [] "@alice:example.org" [Resume 0]) as [_ H].
  destruct (H eq_refl "86f01aef21b1acd3f7722fa5c5e3ad09f683388edd2fe494435839da18bb166f")
    as (_ & Hr & _).
  - vm_compute. reflexivity.
  - apply Hr. constructor.
Defined.

(** C3, on the code: the pipeline is initialised with pseudonymous tracking
    allowed, on the page of a room, and an Anonymous event is tracked; the
    sink receives it with the hexadecimal digest of the room id in
    [$current_url], and with the referrer and the device id as they were. *)
Theorem anonymous_event_carries_hashed_location :
  let w := run sha256_digest posthog_properties tracking_env
             [ Invoke (CInit false); Resume 0; Resume 0;
               Invoke (CTrackAnonymousEvent "onboarding_login_begin" ∅); Resume 1; Resume 1 ]
             (initial room_location) in
  hashHex sha256_digest "!abc123"
  = Some "f9f27b73b7033c3ce2d91c00f7bb46cd9face89fd8b4de5d6e2733d3ac84a6de" /\
  omap (sent_property "$current_url") (log w)
  = [ (0, "$pageview",
       Some (JStr "https://app.element.io/#/room/f9f27b73b7033c3ce2d91c00f7bb46cd9face89fd8b4de5d6e2733d3ac84a6de"));
      (1, "onboarding_login_begin",
       Some (JStr "https://app.element.io/#/room/f9f27b73b7033c3ce2d91c00f7bb46cd9face89fd8b4de5d6e2733d3ac84a6de")) ] /\
  omap (sent_property "$device_id") (log w)
  = [ (0, "$pageview", Some (JStr "17a5b1c2-device"));
      (1, "onboarding_login_begin", Some (JStr "17a5b1c2-device")) ].
Proof. split; [|split]; vm_compute; reflexivity. Qed.

(** C4, on the code: [init] finds a do-not-track signal, or no configuration
    of the sink, and leaves the pipeline disabled; [identifyUser] then still
    calls the sink's identify, with the digest of the user id. *)
Theorem disabled_pipeline_identifies :
  let identify := [ Invoke (CIdentifyUser "@alice:example.org"); Resume 1 ] in
  let w := run sha256_digest posthog_properties dnt_env
             (Invoke (CInit true) :: identify) (initial room_location) in
  let w' := run sha256_digest posthog_properties unconfigured_env
              (Invoke (CInit false) :: identify) (initial room_location) in
  isInitialised (this w) = false /\
  log w = [ (0, Fulfilled);
            (1, SinkIdentify "86f01aef21b1acd3f7722fa5c5e3ad09f683388edd2fe494435839da18bb166f");
            (1, Fulfilled) ] /\
  isInitialised (this w') = false /\
  log w' = log w.
Proof. repeat split; vm_compute; reflexivity. Qed.

(** C5, as stated, fails: when the digest rejects, the promise that
    [identifyUser] handed to its caller rejects. *)
Lemma identifyUser_rejects_to_caller :
  hashHex no_digest "@alice:example.org" = None /\
  events_of 0 (log (run no_digest posthog_properties tracking_env
                      [Invoke (CIdentifyUser "@alice:example.org"); Resume 0]
                      (initial room_location)))
  = [Rejected].
Proof. split; vm_compute; reflexivity. Qed.

Lemma digest_failure_rejects_witness :
  events_of 0 (log (run no_digest posthog_properties tracking_env
                      [Invoke (CTrackRoomEvent "room_view" "!abc123:example.org" ∅); Resume 0]
                      (initial room_location)))
  = [Rejected].
Proof.
  destruct (digest_failure_rejects no_digest posthog_properties tracking_env room_location
              [] [Resume 0]) as (_ & _ & H & _).
  apply (H "room_view" "!abc123:example.org" ∅).
  - discriminate.
  - reflexivity.
  - constructor.
Defined.



(** ** More on [hashHex] *)

Lemma append_empty_r s : s ++ "" = s.
Proof.
  induction s as [|c s IH]; [done|].
  change (String c (s ++ "") = String c s). by rewrite IH.
Qed.

Lemma join_empty_cons x l : Str.join "" (x :: l) = x ++ Str.join "" l.
Proof. destruct l; [cbn [Str.join]; by rewrite append_empty_r|done]. Qed.

Lemma decode_ofByte b s :
  Hex.decode (Hex.ofByte b ++ s) = (bs ← Hex.decode s; Some (b :: bs)).
Proof. destruct b; reflexivity. Qed.

Lemma length_ofByte b s : String.length (Hex.ofByte b ++ s) = S (S (String.length s)).
Proof. destruct b; reflexivity. Qed.

Section HashFacts.

Variable digest : list byte -> option (list byte).

(** X1: two hexadecimal digits per byte of the digest: a byte below 16 keeps its
    leading zero. *)
Theorem hashHex_length input h :
  hashHex digest input = Some h ->
  exists digestBuf,
    digest (list_byte_of_string input) = Some digestBuf /\
    String.length h = 2 * length digestBuf.
Proof.
  unfold hashHex. destruct (digest _) as [buf|]; [|done]. simpl. intros [= <-].
  exists buf. split; [done|].
  induction buf as [|b buf IH]; [done|].
  cbn [map]. rewrite join_empty_cons, length_ofByte, IH. simpl. lia.
Qed.

(** X2: the hexadecimal string reads back to the bytes of the digest: the
    encoding loses nothing and merges no two digests. *)
Theorem hashHex_decode input h :
  hashHex digest input = Some h ->
  Hex.decode h = digest (list_byte_of_string input).
Proof.
  unfold hashHex. destruct (digest _) as [buf|]; [|done]. simpl. intros [= <-].
  induction buf as [|b buf IH]; [done|].
  cbn [map]. by rewrite join_empty_cons, decode_ofByte, IH.
Qed.

End HashFacts.

Lemma hashHex_length_witness :
  exists digestBuf,
    sha256_digest (list_byte_of_string "!abc123") = Some digestBuf /\
    String.length "f9f27b73b7033c3ce2d91c00f7bb46cd9face89fd8b4de5d6e2733d3ac84a6de"
    = 2 * length digestBuf.
Proof.
  apply (hashHex_length sha256_digest "!abc123"). vm_compute. reflexivity.
Defined.

Lemma hashHex_decode_witness :
  Hex.decode "f9f27b73b7033c3ce2d91c00f7bb46cd9face89fd8b4de5d6e2733d3ac84a6de"
  = sha256_digest (list_byte_of_string "!abc123").
Proof.
  apply (hashHex_decode sha256_digest "!abc123"). vm_compute. reflexivity.
Defined.

(** ** More on [getRedactedCurrentLocation] *)

Lemma split_not_nil sep s : Str.split sep s <> [].
Proof.
  destruct s as [|c s]; simpl; [done|].
  destruct (Ascii.eqb c sep); [done|]. by destruct (Str.split sep s).
Qed.

Lemma join_split sep s : Str.join (String sep "") (Str.split sep s) = s.
Proof.
  induction s as [|c s IH]; [done|]. simpl.
  pose proof (split_not_nil sep s) as Hne.
  destruct (Ascii.eqb_spec c sep) as [->|Hc].
  - destruct (Str.split sep s) as [|x xs]; [done|].
    change (String sep (Str.join (String sep "") (x :: xs)) = String sep s). by rewrite IH.
  - destruct (Str.split sep s) as [|x xs]; [done|]. rewrite <- IH.
    by destruct xs.
Qed.

Lemma append_assoc_r a b c : (a ++ b) ++ c = a ++ b ++ c.
Proof.
  induction a as [|x a IH]; [done|].
  change (String x ((a ++ b) ++ c) = String x (a ++ b ++ c)). by rewrite IH.
Qed.

Section MoreRedactionFacts.

Variable digest : list byte -> option (list byte).

Lemma redactParts_pseudonymous_none parts :
  redactParts digest Pseudonymous parts = None <->
  Exists (fun seg => hashHex digest seg = None) parts.
Proof.
  induction parts as [|p ps IH]; simpl.
  - split; [done|]. by intros ?%Exists_nil.
  - rewrite Exists_cons, <- IH. destruct (hashHex digest p) as [p'|]; simpl.
    + destruct (redactParts digest Pseudonymous ps); simpl; split; try done.
      * by intros [|].
      * by right.
    + split; [by left|done].
Qed.

(** X3: under the Anonymous tier the redaction always returns, and what it
    returns does not depend on the digest of the platform: no digest is
    taken. *)
Theorem anonymous_redaction_needs_no_digest (digest' : list byte -> option (list byte)) o h p :
  exists out,
    getRedactedCurrentLocation digest o h p Anonymous = Some out /\
    getRedactedCurrentLocation digest' o h p Anonymous = Some out.
Proof.
  unfold getRedactedCurrentLocation. destruct (destructure _) as [[tok screen] parts].
  rewrite !redactParts_anonymous. by eexists.
Qed.

(** X4: under the Pseudonymous tier the redaction rejects exactly when the digest
    of one of the trailing segments of the fragment rejects; the origin, the
    pathname, the leading token and the screen name are never hashed. *)
Theorem pseudonymous_redaction_rejects_iff o h p :
  getRedactedCurrentLocation digest o h p Pseudonymous = None <->
  Exists (fun seg => hashHex digest seg = None) (trailingSegments h).
Proof.
  rewrite <- redactParts_pseudonymous_none.
  unfold getRedactedCurrentLocation, destructure. fold (trailingSegments h).
  by destruct (redactParts digest Pseudonymous (trailingSegments h)).
Qed.

(** X5: a fragment without a "/" (the empty fragment among them) has no screen
    name: under both tiers the output is the origin, the path component, the
    fragment as it is and the placeholder of an unknown screen. *)
Theorem fragment_without_separator o h p a :
  Str.has "/" h = false ->
  getRedactedCurrentLocation digest o h p a
  = Some (o ++ pathComponent o p ++ h ++ "/<redacted_screen_name>/").
Proof.
  intros Hh. unfold getRedactedCurrentLocation, pathComponent.
  rewrite (split_whole "/" h Hh). by destruct a.
Qed.

(** X6: a fragment made of a leading token and a known screen, with nothing
    after it, has nothing to redact: under both tiers the output is the
    location with a "/" added at its end. *)
Theorem known_screen_alone o h p a tok screen :
  Str.split "/" h = [tok; screen] -> screen ∈ knownScreens ->
  getRedactedCurrentLocation digest o h p a = Some (o ++ pathComponent o p ++ h ++ "/").
Proof.
  intros Hs Hk. unfold getRedactedCurrentLocation, pathComponent.
  rewrite <- (join_split "/" h) at 2. rewrite Hs. cbn [destructure head tail knownScreens_has].
  rewrite bool_decide_eq_true_2 by done.
  assert (redactParts digest a [] = Some []) as -> by done.
  cbn [mbind option_bind negb template default Str.join].
  change (tok ++ "/" ++ screen ++ "/" ++ "") with (tok ++ String "/" (screen ++ "/")).
  change (tok ++ "/" ++ screen) with (tok ++ String "/" screen).
  by rewrite (append_assoc_r tok).

Qed.

(** The screen field of an output is a screen field again. *)
Lemma redacted_screen_stable screen :
  template (if negb (knownScreens_has
                       (Some (if knownScreens_has screen then template screen
                              else "<redacted_screen_name>")))
            then Some "<redacted_screen_name>"
            else Some (if knownScreens_has screen then template screen
                       else "<redacted_screen_name>"))
  = if knownScreens_has screen then template screen else "<redacted_screen_name>".
Proof.
  destruct screen as [s|]; cbn [knownScreens_has template default].
  - destruct (bool_decide (s ∈ knownScreens)) eqn:Hk.
    + unfold id. rewrite Hk. reflexivity.
    + by destruct (negb _).
  - by destruct (negb _).
Qed.

Lemma repeat_redactParts n :
  redactParts digest Anonymous (repeat "<redacted>" n) = Some (repeat "<redacted>" n).
Proof. by rewrite redactParts_anonymous, repeat_length. Qed.

(** X7: what the Anonymous redaction gives for a fragment, when the fragment has
    at least one trailing segment, is left as it is by a second redaction. *)
Theorem anonymous_redaction_idempotent o h p out :
  trailingSegments h <> [] ->
  getRedactedCurrentLocation digest "" h "" Anonymous = Some out ->
  getRedactedCurrentLocation digest o out p Anonymous
  = getRedactedCurrentLocation digest o h p Anonymous.
Proof.
  intros Hne Hout. rewrite !(getRedactedCurrentLocation_parts digest o _ p), Hout.
  cut (getRedactedCurrentLocation digest "" out "" Anonymous = Some out); [by intros ->|].
  pose proof (join_split "/" out) as Hj.
  destruct (hashStr_split digest h Anonymous out Hout) as (tok & parts' & Hr & Hs).
  rewrite redactParts_anonymous in Hr. injection Hr as <-.
  destruct (trailingSegments h) as [|seg segs] eqn:Ht; [done|].
  set (n := length (seg :: segs)) in *.
  set (screen' := if knownScreens_has _ then _ else _) in Hs.
  subst n. cbn [length repeat] in Hs.
  unfold getRedactedCurrentLocation. rewrite Hs. cbn [destructure head tail].
  change ("<redacted>" :: repeat "<redacted>" (length segs))
    with (repeat "<redacted>" (S (length segs))) at 1.
  rewrite repeat_redactParts. cbn [mbind option_bind repeat].
  rewrite Hs in Hj. rewrite <- Hj.
  change (Str.startsWith "" "file://") with false. cbv iota.
  unfold screen'. rewrite redacted_screen_stable.
  done.
Qed.

(** X8: without a trailing segment a second Anonymous redaction is not the
    identity: the first one ends the fragment with "/", which the second
    reads as an empty trailing segment and replaces by the marker. *)
Theorem anonymous_redaction_twice_adds_marker o h p out :
  trailingSegments h = [] ->
  getRedactedCurrentLocation digest "" h "" Anonymous = Some out ->
  getRedactedCurrentLocation digest o out p Anonymous
  = Some (o ++ pathComponent o p ++ out ++ "<redacted>").
Proof.
  intros Hnil Hout. rewrite (getRedactedCurrentLocation_parts digest o _ p).
  cut (getRedactedCurrentLocation digest "" out "" Anonymous = Some (out ++ "<redacted>"));
    [by intros ->|].
  pose proof (join_split "/" out) as Hj.
  destruct (hashStr_split digest h Anonymous out Hout) as (tok & parts' & Hr & Hs).
  rewrite redactParts_anonymous, Hnil in Hr. injection Hr as <-.
  set (screen' := if knownScreens_has _ then _ else _) in Hs.
  cbn [repeat length] in Hs.
  unfold getRedactedCurrentLocation. rewrite Hs. cbn [destructure head tail].
  rewrite Hs in Hj. rewrite <- Hj.
  cbn [redactParts mbind option_bind Str.join].
  change (Str.startsWith "" "file://") with false. cbv iota.
  pose proof (redacted_screen_stable (screenSegment h)) as Hst. fold screen' in Hst.
  rewrite Hst.
  cbn [template default]. f_equal.
  change ("" ++ "" ++ tok ++ "/" ++ screen' ++ "/" ++ "<redacted>")
    with (tok ++ String "/" (screen' ++ String "/" "<redacted>")).
  change (tok ++ "/" ++ screen' ++ "/" ++ "") with (tok ++ String "/" (screen' ++ String "/" "")).
  rewrite (append_assoc_r tok). change ((String "/" (screen' ++ String "/" "")) ++ "<redacted>")
    with (String "/" ((screen' ++ String "/" "") ++ "<redacted>")).
  by rewrite (append_assoc_r screen').
Qed.

End MoreRedactionFacts.

(** ** More on the sanitize hook *)

Lemma sanitizeProperties_at (a : PosthogAnalytics) (properties : gmap string JsValue)
    (k : string) :
  sanitizeProperties a properties !! k =
    if decide (k ∈ overwrittenKeys a) then
      Some (if decide (k = "$current_url") then of_cache (redactedCurrentLocation a) else JNull)
    else properties !! k.
Proof.
  unfold sanitizeProperties, overwrittenKeys, referrerKeys.
  destruct (onlyTrackAnonymousEvents a); rewrite ?lookup_insert;
    repeat case_decide; subst; try done;
    repeat match goal with
    | H : _ ∈ _ :: _ |- _ => apply elem_of_cons in H as [->|H]
    | H : _ ∈ [] |- _ => by apply elem_of_nil in H
    | H : ?k ∉ _ |- _ => exfalso; apply H; set_solver
    end; try done.
Qed.

(** X9: what the hook returns depends on the properties it is given only outside
    the keys it writes: the raw URL that the sink supplies, and under
    [onlyTrackAnonymousEvents] the referrer and device values, never get
    through. *)
Theorem sanitizeProperties_discards (a : PosthogAnalytics) (p p' : gmap string JsValue) :
  (forall k, k ∉ overwrittenKeys a -> p !! k = p' !! k) ->
  sanitizeProperties a p = sanitizeProperties a p'.
Proof.
  intros H. apply map_eq. intros k. rewrite !sanitizeProperties_at.
  case_decide; [done|by apply H].
Qed.

(** X10: running the hook a second time changes nothing. *)
Theorem sanitizeProperties_idempotent (a : PosthogAnalytics) (p : gmap string JsValue) :
  sanitizeProperties a (sanitizeProperties a p) = sanitizeProperties a p.
Proof.
  apply map_eq. intros k. rewrite !sanitizeProperties_at. by case_decide.
Qed.

(** X11: the hook removes no key: the keys of the result are those it was given
    and those it writes, which are there (possibly null) even when they were
    not given. *)
Theorem sanitizeProperties_dom (a : PosthogAnalytics) (p : gmap string JsValue) :
  dom (sanitizeProperties a p) = dom p ∪ list_to_set (overwrittenKeys a).
Proof.
  apply set_eq. intros k.
  rewrite elem_of_union, elem_of_list_to_set, !elem_of_dom, sanitizeProperties_at.
  case_decide; [|by intuition]. split; [by right|by eexists].
Qed.

Lemma sanitizeProperties_discards_witness :
  sanitizeProperties (mkThis true true (Some "https://app.element.io/#/home/"))
    (posthog_properties room_location "$pageview" ∅)
  = sanitizeProperties (mkThis true true (Some "https://app.element.io/#/home/")) ∅.
Proof.
  apply sanitizeProperties_discards. intros k Hk.
  unfold posthog_properties. rewrite (left_id_L ∅ (∪)), !lookup_insert.
  repeat case_decide; subst; try done; exfalso; apply Hk; vm_compute; set_solver.
Defined.

(** ** Calls run to their end *)

Section CallFacts.

Variable digest : list byte -> option (list byte).
Variable sink : Location -> string -> gmap string JsValue -> gmap string JsValue.
Variable env : Env.

Lemma resume_waiting w t k :
  pending w !! t = Some k ->
  resume digest sink t w =
  let w := retire t w in
  match k with
  | InitUpdating cfg None => emit t Rejected w
  | InitUpdating cfg (Some v) =>
      suspend t (InitUpdated cfg) (updateRedactedCurrentLocation_end t v w)
  | InitUpdated cfg =>
      let w := emit t (SinkInit (projectApiKey cfg) (apiHost cfg)) w in
      let w := posthog_capture sink t "$pageview" ∅ w in
      emit t Fulfilled (with_this (set_initialised true) w)
  | CaptureUpdating eventName properties None => emit t UnhandledRejection w
  | CaptureUpdating eventName properties (Some v) =>
      suspend t (CaptureUpdated eventName properties)
              (updateRedactedCurrentLocation_end t v w)
  | CaptureUpdated eventName properties => posthog_capture sink t eventName properties w
  | IdentifyHashing None => emit t Rejected w
  | IdentifyHashing (Some h) => emit t Fulfilled (emit t (SinkIdentify h) w)
  | RoomHashing eventName properties None => emit t Rejected w
  | RoomHashing eventName properties (Some h) =>
      trackRoomEvent_end digest t eventName properties (JStr h) w
  end.
Proof. intros H. unfold resume. by rewrite H. Qed.

(** X12: an event tracked while the pipeline is not initialised is dropped, not
    kept for later: whatever happens afterwards, a later [init] included, the
    call does nothing but return. *)
Theorem track_before_init_dropped loc acts0 eventName properties acts :
  let w := run digest sink env acts0 (initial loc) in
  initialised (this w) = false ->
  events_of (next_call w)
    (log (run digest sink env (Invoke (CTrackAnonymousEvent eventName properties) :: acts) w))
  = [Fulfilled] /\
  events_of (next_call w)
    (log (run digest sink env (Invoke (CTrackPseudonymousEvent eventName properties) :: acts) w))
  = [Fulfilled].
Proof.
  intros w Hi. assert (wf w) as Hw by apply run_wf, initial_wf.
  destruct (Hw (next_call w) ltac:(lia)) as [Hp He].
  split; rewrite run_cons.
  - rewrite run_finished; [| by apply step_wf | |].
    + world. rewrite Hi. world. by rewrite events_of_app, events_of_one, He, decide_True.
    + world. rewrite Hi. world. lia.
    + world. by rewrite Hi.
  - rewrite run_finished; [| by apply step_wf | |].
    + world. rewrite Hi. destruct (onlyTrackAnonymousEvents (this w)); world;
        by rewrite events_of_app, events_of_one, He, decide_True.
    + world. rewrite Hi. destruct (onlyTrackAnonymousEvents (this w)); world; lia.
    + world. rewrite Hi. by destruct (onlyTrackAnonymousEvents (this w)).
Qed.

(** X13: a pseudonymous event tracked while [onlyTrackAnonymousEvents] is set is
    dropped without a word: the call returns, and nothing of it ever reaches
    the sink. *)
Theorem pseudonymous_event_dropped loc acts0 eventName properties acts :
  let w := run digest sink env acts0 (initial loc) in
  onlyTrackAnonymousEvents (this w) = true ->
  events_of (next_call w)
    (log (run digest sink env (Invoke (CTrackPseudonymousEvent eventName properties) :: acts) w))
  = [Fulfilled].
Proof.
  intros w Hf. assert (wf w) as Hw by apply run_wf, initial_wf.
  destruct (Hw (next_call w) ltac:(lia)) as [Hp He].
  rewrite run_cons, run_finished; [| by apply step_wf | |].
  - world. rewrite Hf. world. by rewrite events_of_app, events_of_one, He, decide_True.
  - world. rewrite Hf. world. lia.
  - world. by rewrite Hf.
Qed.

(** X14: [trackRoomEvent] looks at [onlyTrackAnonymousEvents] when the digest of
    the room id is there, not when it is called: if the flag is set by then,
    the event is dropped. *)
Theorem room_event_dropped_after_hash loc acts0 eventName roomId properties pre post h :
  let w := run digest sink env acts0 (initial loc) in
  let t := next_call w in
  let w1 := run digest sink env (Invoke (CTrackRoomEvent eventName roomId properties) :: pre) w in
  roomId <> "" -> hashHex digest roomId = Some h -> Resume t ∉ pre ->
  onlyTrackAnonymousEvents (this w1) = true ->
  events_of t (log (run digest sink env (Resume t :: post) w1)) = [Fulfilled].
Proof.
  intros w t w1 Hroom Hh Hpre Hf. subst t. assert (wf w) as Hw by apply run_wf, initial_wf.
  destruct (invoke_trackRoomEvent digest sink env w eventName roomId properties Hw Hroom)
    as (Hw0 & Hn & He & Hp).
  subst w1.
  change (run digest sink env (Invoke (CTrackRoomEvent eventName roomId properties) :: pre) w)
    with (run digest sink env pre
            (step digest sink env w (Invoke (CTrackRoomEvent eventName roomId properties)))) in *.
  set (w0 := step digest sink env w _) in *.
  destruct (run_waiting digest sink env pre w0 _ Hw0 Hn Hpre) as (He1 & Hp1 & Hn1).
  pose proof (run_wf digest sink env pre w0 Hw0) as Hw1.
  set (w1 := run digest sink env pre w0) in *.
  rewrite Hp, Hh in Hp1. rewrite He in He1. clearbody w1. clear Hp He Hw0 Hn. clearbody w0.
  rewrite run_cons, run_finished; [| by apply (step_wf _ _ _ _ (Resume _)) | |].
  - unfold step. rewrite (resume_waiting _ _ _ Hp1). world. rewrite Hf. world.
    by rewrite events_of_app, events_of_one, He1, decide_True.
  - unfold step. rewrite (resume_waiting _ _ _ Hp1). world. by rewrite Hf.
  - unfold step. rewrite (resume_waiting _ _ _ Hp1). world. rewrite Hf. world.
    by rewrite lookup_delete_eq.
Qed.

(** What one resumption does, place by place. *)
Lemma resume_room w t eventName properties h :
  pending w !! t = Some (RoomHashing eventName properties (Some h)) ->
  initialised (this w) = true -> onlyTrackAnonymousEvents (this w) = false ->
  let w' := resume digest sink t w in
  this w' = this w /\ location w' = location w /\
  log w' = (log w ++ [(t, Fulfilled)])%list /\
  pending w' !! t
  = Some (CaptureUpdating eventName (<["hashedRoomId" := JStr h]> properties)
            (updateRedactedCurrentLocation_begin digest w)).
Proof.
  intros Hp Hi Hf. cbv zeta. rewrite (resume_waiting _ _ _ Hp). world. rewrite Hf, Hi. world.
  by rewrite lookup_insert_eq.
Qed.

Lemma resume_capture_updating w t eventName properties v :
  pending w !! t = Some (CaptureUpdating eventName properties (Some v)) ->
  let w' := resume digest sink t w in
  this w' = set_redactedCurrentLocation (Some v) (this w) /\ location w' = location w /\
  log w' = (log w ++ [(t, CacheUpdated v)])%list /\
  pending w' !! t = Some (CaptureUpdated eventName properties).
Proof.
  intros Hp. cbv zeta. rewrite (resume_waiting _ _ _ Hp). world. by rewrite lookup_insert_eq.
Qed.

Lemma resume_capture_updated w t eventName properties :
  pending w !! t = Some (CaptureUpdated eventName properties) ->
  let w' := resume digest sink t w in
  this w' = this w /\ location w' = location w /\
  log w' = (log w ++ [(t, SinkCapture eventName
                            (sanitizeProperties (this w)
                               (sink (location w) eventName properties)))])%list /\
  pending w' !! t = None.
Proof.
  intros Hp. cbv zeta. rewrite (resume_waiting _ _ _ Hp). world. by rewrite lookup_delete_eq.
Qed.

Lemma resume_init_updating w t cfg v :
  pending w !! t = Some (InitUpdating cfg (Some v)) ->
  let w' := resume digest sink t w in
  this w' = set_redactedCurrentLocation (Some v) (this w) /\ location w' = location w /\
  log w' = (log w ++ [(t, CacheUpdated v)])%list /\
  pending w' !! t = Some (InitUpdated cfg).
Proof.
  intros Hp. cbv zeta. rewrite (resume_waiting _ _ _ Hp). world. by rewrite lookup_insert_eq.
Qed.

Lemma resume_init_updated w t cfg :
  pending w !! t = Some (InitUpdated cfg) ->
  let w' := resume digest sink t w in
  this w' = set_initialised true (this w) /\ location w' = location w /\
  log w' = (log w ++ [(t, SinkInit (projectApiKey cfg) (apiHost cfg));
                      (t, SinkCapture "$pageview"
                            (sanitizeProperties (this w) (sink (location w) "$pageview" ∅)));
                      (t, Fulfilled)])%list /\
  pending w' !! t = None.
Proof.
  intros Hp. cbv zeta. rewrite (resume_waiting _ _ _ Hp). world.
  by rewrite lookup_delete_eq, <- !app_assoc.
Qed.

(** What a call does up to its first [await], field by field. *)
Lemma invoke_room_fields w eventName roomId properties :
  roomId <> "" ->
  let w' := invoke digest env (CTrackRoomEvent eventName roomId properties) w in
  this w' = this w /\ location w' = location w /\ log w' = log w /\
  pending w' !! next_call w = Some (RoomHashing eventName properties (hashHex digest roomId)).
Proof.
  intros Hr. apply String.eqb_neq in Hr. cbv zeta. unfold invoke. rewrite Hr. world.
  by rewrite lookup_insert_eq.
Qed.

Lemma invoke_room_empty_fields w eventName properties :
  initialised (this w) = true -> onlyTrackAnonymousEvents (this w) = false ->
  let w' := invoke digest env (CTrackRoomEvent eventName "" properties) w in
  this w' = this w /\ location w' = location w /\
  log w' = (log w ++ [(next_call w, Fulfilled)])%list /\
  pending w' !! next_call w
  = Some (CaptureUpdating eventName (<["hashedRoomId" := JNull]> properties)
            (updateRedactedCurrentLocation_begin digest w)).
Proof.
  intros Hi Hf. cbv zeta. unfold invoke. cbn [String.eqb]. world. rewrite Hf, Hi. world.
  by rewrite lookup_insert_eq.
Qed.


Lemma invoke_init_fields w onlyTrackAnonymous cfg :
  doNotTrack env <> Some "1" -> posthogConfig env = Some cfg ->
  let w' := invoke digest env (CInit onlyTrackAnonymous) w in
  this w' = set_onlyTrackAnonymousEvents onlyTrackAnonymous (this w) /\
  location w' = location w /\ log w' = log w /\
  pending w' !! next_call w
  = Some (InitUpdating cfg
            (getRedactedCurrentLocation digest (origin (location w)) (hash (location w))
               (pathname (location w))
               (if onlyTrackAnonymous then Anonymous else Pseudonymous))).
Proof.
  intros Hd Hc. cbv zeta. unfold invoke. rewrite bool_decide_eq_false_2, Hc by done. world.
  by rewrite lookup_insert_eq.
Qed.

Lemma events_of_cons_own t e l : events_of t ((t, e) :: l) = e :: events_of t l.
Proof. unfold events_of. cbn [omap list_omap fst snd]. by rewrite Nat.eqb_refl. Qed.

Lemma events_of_snoc t l e :
  events_of t (l ++ [(t, e)])%list = (events_of t l ++ [e])%list.
Proof. by rewrite events_of_app, events_of_one, decide_True. Qed.

(** X15: [trackRoomEvent] run to its end on an initialised pipeline that allows
    pseudonymous tracking: the one thing it sends is a capture of the
    caller's properties with [hashedRoomId] set to the hexadecimal digest of
    the room id, the room id itself being dropped; the location is read and
    redacted once the digest is there. *)
Theorem room_event_sent loc acts0 eventName roomId properties h v :
  let w := run digest sink env acts0 (initial loc) in
  let t := next_call w in
  initialised (this w) = true -> onlyTrackAnonymousEvents (this w) = false ->
  roomId <> "" -> hashHex digest roomId = Some h ->
  updateRedactedCurrentLocation_begin digest w = Some v ->
  events_of t
    (log (run digest sink env
            [Invoke (CTrackRoomEvent eventName roomId properties); Resume t; Resume t; Resume t] w))
  = [ Fulfilled; CacheUpdated v;
      SinkCapture eventName
        (sanitizeProperties (mkThis false true (Some v))
           (sink (location w) eventName (<["hashedRoomId" := JStr h]> properties))) ].
Proof.
  intros w t Hi Hf Hroom Hh Hu. subst t. assert (wf w) as Hw by apply run_wf, initial_wf.
  destruct (Hw (next_call w) ltac:(lia)) as [_ He]. clearbody w.
  unfold run. cbn [fold_left]. unfold step.
  destruct (invoke_room_fields w eventName roomId properties Hroom) as (T1 & L1 & G1 & P1).
  rewrite Hh in P1. set (w1 := invoke _ _ _ w) in *. clearbody w1.
  destruct (resume_room w1 _ _ _ _ P1) as (T2 & L2 & G2 & P2); [by rewrite T1..|].
  assert (updateRedactedCurrentLocation_begin digest w1 = Some v) as Hu1.
  { unfold updateRedactedCurrentLocation_begin in *. by rewrite T1, L1. }
  rewrite Hu1 in P2. set (w2 := resume _ _ _ w1) in *. clearbody w2.
  destruct (resume_capture_updating w2 _ _ _ _ P2) as (T3 & L3 & G3 & P3).
  set (w3 := resume _ _ _ w2) in *. clearbody w3.
  destruct (resume_capture_updated w3 _ _ _ P3) as (T4 & L4 & G4 & P4).
  rewrite G4, G3, G2, G1, !events_of_snoc, He, T3, T2, T1, L3, L2, L1.
  unfold set_redactedCurrentLocation. by rewrite Hi, Hf.
Qed.

(** X16: [trackRoomEvent] with an empty room id takes no digest and does not wait
    for one: the event is sent with [hashedRoomId] null. *)
Theorem room_event_without_room loc acts0 eventName properties v :
  let w := run digest sink env acts0 (initial loc) in
  let t := next_call w in
  initialised (this w) = true -> onlyTrackAnonymousEvents (this w) = false ->
  updateRedactedCurrentLocation_begin digest w = Some v ->
  events_of t
    (log (run digest sink env
            [Invoke (CTrackRoomEvent eventName "" properties); Resume t; Resume t] w))
  = [ Fulfilled; CacheUpdated v;
      SinkCapture eventName
        (sanitizeProperties (mkThis false true (Some v))
           (sink (location w) eventName (<["hashedRoomId" := JNull]> properties))) ].
Proof.
  intros w t Hi Hf Hu. subst t. assert (wf w) as Hw by apply run_wf, initial_wf.
  destruct (Hw (next_call w) ltac:(lia)) as [_ He]. clearbody w.
  unfold run. cbn [fold_left]. unfold step.
  destruct (invoke_room_empty_fields w eventName properties Hi Hf) as (T1 & L1 & G1 & P1).
  rewrite Hu in P1. set (w1 := invoke _ _ _ w) in *. clearbody w1.
  destruct (resume_capture_updating w1 _ _ _ _ P1) as (T2 & L2 & G2 & P2).
  set (w2 := resume _ _ _ w1) in *. clearbody w2.
  destruct (resume_capture_updated w2 _ _ _ P2) as (T3 & L3 & G3 & P3).
  rewrite G3, G2, G1, !events_of_snoc, He, T2, T1, L2, L1.
  unfold set_redactedCurrentLocation. by rewrite Hi, Hf.
Qed.


(** X18: [init] run to its end with no do-not-track signal and a configuration of
    the sink: the flag is stored, the location is redacted by it and cached,
    then the sink is initialised with the key and the host of the
    configuration, the pageview goes through the hook, and only then is the
    pipeline initialised. *)
Theorem init_initialises loc acts0 onlyTrackAnonymous cfg v :
  let w := run digest sink env acts0 (initial loc) in
  let t := next_call w in
  let w' := run digest sink env [Invoke (CInit onlyTrackAnonymous); Resume t; Resume t] w in
  doNotTrack env <> Some "1" -> posthogConfig env = Some cfg ->
  getRedactedCurrentLocation digest (origin (location w)) (hash (location w))
    (pathname (location w)) (if onlyTrackAnonymous then Anonymous else Pseudonymous) = Some v ->
  this w' = mkThis onlyTrackAnonymous true (Some v) /\
  events_of t (log w')
  = [ CacheUpdated v; SinkInit (projectApiKey cfg) (apiHost cfg);
      SinkCapture "$pageview"
        (sanitizeProperties (mkThis onlyTrackAnonymous (initialised (this w)) (Some v))
           (sink (location w) "$pageview" ∅));
      Fulfilled ].
Proof.
  intros w t w' Hd Hc Hu. subst t w'. assert (wf w) as Hw by apply run_wf, initial_wf.
  destruct (Hw (next_call w) ltac:(lia)) as [_ He]. clearbody w.
  unfold run. cbn [fold_left]. unfold step.
  destruct (invoke_init_fields w onlyTrackAnonymous cfg Hd Hc) as (T1 & L1 & G1 & P1).
  rewrite Hu in P1. set (w1 := invoke _ _ _ w) in *. clearbody w1.
  destruct (resume_init_updating w1 _ _ _ P1) as (T2 & L2 & G2 & P2).
  set (w2 := resume _ _ _ w1) in *. clearbody w2.
  destruct (resume_init_updated w2 _ _ P2) as (T3 & L3 & G3 & P3).
  rewrite T3, G3, G2, G1, T2, T1, L2, L1. split; [done|].
  rewrite !events_of_app, !events_of_cons_own, He. reflexivity.
Qed.

End CallFacts.

(** ** What the pipeline never does *)

Section NeverFacts.

Variable digest : list byte -> option (list byte).
Variable sink : Location -> string -> gmap string JsValue -> gmap string JsValue.
Variable env : Env.

Lemma sink_started_app l l' : sink_started l -> sink_started (l ++ l').
Proof. unfold sink_started. rewrite existsb_app. by intros ->. Qed.

Lemma init_before_capture_snoc l t e :
  init_before_capture l ->
  (forall eventName properties, e = SinkCapture eventName properties -> sink_started l) ->
  init_before_capture (l ++ [(t, e)]).
Proof.
  intros Hl He before t' n p after Heq.
  destruct after as [|x after _] using rev_ind.
  - apply app_inj_tail in Heq as [<- [= <- ->]]. by eapply He.
  - rewrite app_comm_cons, app_assoc in Heq. apply app_inj_tail in Heq as [-> _].
    by eapply Hl.
Qed.

Lemma started_emit w t e :
  started_inv w ->
  (forall n p, e = SinkCapture n p -> sink_started (log w)) ->
  started_inv (emit t e w).
Proof.
  intros [H1 H2 H3] He. split; world.
  - intros Hi. by apply sink_started_app, H1.
  - intros t' k Hk Hc. by eapply sink_started_app, H2.
  - by apply init_before_capture_snoc.
Qed.

Lemma started_with_this w f :
  started_inv w ->
  (forall a, initialised (f a) = true -> initialised a = true \/ sink_started (log w)) ->
  started_inv (with_this f w).
Proof.
  intros [H1 H2 H3] Hf. split; world; try done.
  intros Hi. destruct (Hf _ Hi); auto.
Qed.

Lemma started_suspend w t k :
  started_inv w -> (capture_waiting k = true -> sink_started (log w)) ->
  started_inv (suspend t k w).
Proof.
  intros [H1 H2 H3] Hk. split; world; try done.
  intros t' k'. rewrite lookup_insert. case_decide; [|by apply H2].
  subst. intros [= <-]. apply Hk.
Qed.

Lemma started_retire w t : started_inv w -> started_inv (retire t w).
Proof.
  intros [H1 H2 H3]. split; world; try done.
  intros t' k'. rewrite lookup_delete. case_decide; [done|by apply H2].
Qed.

Lemma started_update_end w t v :
  started_inv w -> started_inv (updateRedactedCurrentLocation_end t v w).
Proof.
  intros H. unfold updateRedactedCurrentLocation_end.
  apply started_emit; [|done]. apply started_with_this; [done|]. by left.
Qed.

Lemma started_capture w t eventName properties anonymity :
  started_inv w -> started_inv (capture digest t eventName properties anonymity w).
Proof.
  intros H. unfold capture. destruct (initialised (this w)) eqn:Hi; [|done].
  apply started_suspend; [done|]. intros _. by apply (started_initialised _ H).
Qed.

Lemma started_trackRoomEvent_end w t eventName properties hashedRoomId :
  started_inv w ->
  started_inv (trackRoomEvent_end digest t eventName properties hashedRoomId w).
Proof.
  intros H. unfold trackRoomEvent_end, trackPseudonymousEvent.
  apply started_emit; [|done]. case_match; [done|by apply started_capture].
Qed.

Lemma step_started_inv w a : started_inv w -> started_inv (step digest sink env w a).
Proof.
  intros H. destruct a as [c|t|loc]; [| |by destruct H].
  - assert (started_inv (fresh_call w)) as H' by (by destruct H).
    unfold step, invoke. revert H'. generalize (fresh_call w). intros w1 H1.
    destruct c; repeat case_match;
      repeat first
        [ done
        | apply started_trackRoomEvent_end
        | apply started_capture
        | apply started_emit; [|done]
        | apply started_with_this; [|by (intros a; simpl; auto)]
        | apply started_suspend; [|done] ].
    unfold trackPseudonymousEvent. case_match; [done|by apply started_capture].
  - unfold step, resume. destruct (pending w !! t) as [k|] eqn:Hk; [|done].
    pose proof (started_pending _ H t k Hk) as Hs. apply (started_retire _ t) in H.
    change (log w) with (log (retire t w)) in Hs. revert Hs H. generalize (retire t w).
    intros w1 Hs H.
    assert (forall e, sink_started (log (emit t (SinkInit (projectApiKey e) (apiHost e)) w1)))
      as Hinit.
    { intros e. unfold sink_started. world. rewrite existsb_app. simpl. by rewrite orb_true_r. }
    destruct k as [cfg [v|]|cfg|n p [v|]|n p|[h|]|n p [h|]]; simpl in Hs.
    + apply started_suspend; [by apply started_update_end|done].
    + by apply started_emit.
    + apply started_emit; [|done]. unfold posthog_capture. apply started_with_this.
      * apply started_emit; [by apply started_emit|]. intros _ _ _. apply Hinit.
      * intros a _. right. apply (sink_started_app _ [_]), Hinit.
    + apply started_suspend; [by apply started_update_end|].
      intros _. apply (sink_started_app _ [_]). by apply Hs.
    + by apply started_emit.
    + unfold posthog_capture. apply started_emit; [done|]. intros _ _ _. by apply Hs.
    + apply started_emit; [|done]. by apply started_emit.
    + by apply started_emit.
    + by apply started_trackRoomEvent_end.
    + by apply started_emit.
Qed.

(** X19: the sink's capture is never called before the sink's init: in every log
    of the pipeline, a capture has an init of the sink before it. *)
Theorem capture_never_before_sink_init loc acts before t eventName properties after :
  log (run digest sink env acts (initial loc))
  = (before ++ (t, SinkCapture eventName properties) :: after)%list ->
  exists t' apiKey apiHost, (t', SinkInit apiKey apiHost) ∈ before.
Proof.
  assert (started_inv (run digest sink env acts (initial loc))) as H.
  { assert (started_inv (initial loc)) as H0.
    { split; simpl; try done. intros b t0 n p a Hb. by destruct b. }
    revert H0. generalize (initial loc).
    induction acts as [|a acts IH]; intros w Hw; [done|].
    apply IH. by apply step_started_inv. }
  intros Heq. pose proof (started_ordered _ H _ _ _ _ _ Heq) as Hs.
  unfold sink_started in Hs. apply existsb_exists in Hs as ([t' e] & Hin & He).
  destruct e as [|key host| | | | |]; try done. exists t', key, host. by apply list_elem_of_In.
Qed.

(** X20: once the cache holds a location it always holds one: nothing sets it
    back to null. *)
Theorem cache_never_cleared acts w :
  is_Some (redactedCurrentLocation (this w)) ->
  is_Some (redactedCurrentLocation (this (run digest sink env acts w))).
Proof.
  revert w. induction acts as [|a acts IH]; intros w Hw; [done|].
  rewrite run_cons. apply IH. clear IH.
  destruct a as [c|t|loc]; [| |done].
  - destruct c; world; repeat case_match; world; done.
  - unfold step, resume. destruct (pending w !! t) as [k|]; [|done].
    destruct k as [cfg [v|]|cfg|n p [v|]|n p|[h|]|n p [h|]]; world; repeat case_match; world;
      first [done|by eexists].
Qed.

Lemma sink_untouched_snoc l t e :
  sink_untouched l -> is_sink_init e = false -> is_sink_capture e = false ->
  sink_untouched (l ++ [(t, e)]).
Proof. intros Hl Hi Hc. apply Forall_app. split; [done|]. by repeat constructor. Qed.

(** X21: a pipeline that cannot be enabled, because of a do-not-track signal or
    for want of a configuration of the sink, never initialises the sink and
    never captures, whatever is called: [isInitialised()] stays false and the
    only call of the sink that can be found in its log is an identify. *)
Theorem cannot_be_enabled loc acts :
  doNotTrack env = Some "1" \/ posthogConfig env = None ->
  let w := run digest sink env acts (initial loc) in
  isInitialised (this w) = false /\
  forall t e, (t, e) ∈ log w -> is_sink_call e = true -> exists id, e = SinkIdentify id.
Proof.
  intros Henv w.
  assert (initialised (this w) = false /\ no_capture_waiting w /\ sink_untouched (log w))
    as (Hi & _ & Hl).
  { subst w. assert (initialised (this (initial loc)) = false /\
                     no_capture_waiting (initial loc) /\ sink_untouched (log (initial loc))) as H0.
    { repeat split; [|constructor]. intros t k Hk. simpl in Hk. by rewrite lookup_empty in Hk. }
    revert H0. generalize (initial loc).
    induction acts as [|a acts IH]; intros w (Hi & Hp & Hl); [done|].
    rewrite run_cons. apply IH. clear IH. unfold no_capture_waiting in *.
    destruct a as [c|t|loc']; [| |done].
    - destruct c; world; rewrite ?Hi; repeat case_match; world;
        try (destruct Henv as [Henv|Henv];
             [by apply bool_decide_eq_false in H; rewrite Henv in H|congruence]);
        (split; [done|split; [|repeat apply sink_untouched_snoc; done]]);
        intros t' k'; rewrite ?lookup_insert; try case_decide;
        first [by apply Hp|by intros [= <-]].
    - unfold step, resume. destruct (pending w !! t) as [k|] eqn:Hk; [|done].
      pose proof (Hp t k Hk) as Hok.
      destruct k as [| | | |[h|]|n p [h|]]; try done; world; rewrite ?Hi; repeat case_match; world;
        (split; [done|split; [|repeat apply sink_untouched_snoc; done]]);
        intros t' k'; rewrite ?lookup_delete; try case_decide;
        first [done|by apply Hp]. }
  split; [done|]. intros t e Hin Hs.
  unfold sink_untouched in Hl. rewrite Forall_forall in Hl.
  destruct (Hl _ Hin) as [H1 H2]. destruct e; try done. by eexists.
Qed.

End NeverFacts.

(** ** The added properties on a page of the application *)

Lemma fragment_without_separator_witness :
  Str.has "/" "" = false /\
  getRedactedCurrentLocation no_digest "https://app.element.io" "" "/" Pseudonymous
  = Some ("https://app.element.io" ++ pathComponent "https://app.element.io" "/" ++ ""
          ++ "/<redacted_screen_name>/").
Proof.
  split; [reflexivity|].
  apply (fragment_without_separator no_digest "https://app.element.io" "" "/" Pseudonymous).
  reflexivity.
Defined.

Lemma known_screen_alone_witness :
  getRedactedCurrentLocation sha256_digest "https://app.element.io" "#/home" "/" Pseudonymous
  = Some ("https://app.element.io" ++ pathComponent "https://app.element.io" "/" ++ "#/home"
          ++ "/").
Proof.
  apply (known_screen_alone sha256_digest "https://app.element.io" "#/home" "/" Pseudonymous
           "#" "home").
  - reflexivity.
  - apply elem_of_list_to_set. repeat constructor.
Defined.

Lemma anonymous_redaction_idempotent_witness :
  getRedactedCurrentLocation no_digest "https://app.element.io" "#/room/<redacted>" "/" Anonymous
  = getRedactedCurrentLocation no_digest "https://app.element.io" "#/room/!abc123" "/" Anonymous.
Proof.
  apply (anonymous_redaction_idempotent no_digest "https://app.element.io" "#/room/!abc123" "/"
           "#/room/<redacted>").
  - vm_compute. discriminate.
  - vm_compute. reflexivity.
Defined.

Lemma anonymous_redaction_twice_adds_marker_witness :
  getRedactedCurrentLocation no_digest "https://app.element.io" "#/home/" "/" Anonymous
  = Some ("https://app.element.io" ++ pathComponent "https://app.element.io" "/" ++ "#/home/"
          ++ "<redacted>").
Proof.
  apply (anonymous_redaction_twice_adds_marker no_digest "https://app.element.io" "#/home" "/"
           "#/home/").
  - vm_compute. reflexivity.
  - vm_compute. reflexivity.
Defined.

Lemma track_before_init_dropped_witness :
  events_of 0
    (log (run sha256_digest posthog_properties tracking_env
            [ Invoke (CTrackAnonymousEvent "onboarding_login_begin" ∅); Resume 0;
              Invoke (CInit false); Resume 1; Resume 1 ]
            (initial room_location)))
  = [Fulfilled].
Proof.
  exact (proj1 (track_before_init_dropped sha256_digest posthog_properties tracking_env
                  room_location [] "onboarding_login_begin" ∅
                  [Resume 0; Invoke (CInit false); Resume 1; Resume 1] eq_refl)).
Defined.

Lemma pseudonymous_event_dropped_witness :
  events_of 2
    (log (run sha256_digest posthog_properties tracking_env
            [Invoke (CTrackPseudonymousEvent "room_view" ∅); Resume 2; Resume 2]
            (run sha256_digest posthog_properties tracking_env
               (enabling ++ [Invoke (CSetOnlyTrackAnonymousEvents true)])
               (initial room_location))))
  = [Fulfilled].
Proof.
  apply (pseudonymous_event_dropped sha256_digest posthog_properties tracking_env room_location
           (enabling ++ [Invoke (CSetOnlyTrackAnonymousEvents true)]) "room_view" ∅
           [Resume 2; Resume 2]).
  vm_compute. reflexivity.
Defined.

Lemma room_event_dropped_after_hash_witness :
  events_of 1
    (log (run sha256_digest posthog_properties tracking_env
            [Resume 1; Resume 1; Resume 1]
            (run sha256_digest posthog_properties tracking_env
               [ Invoke (CTrackRoomEvent "room_view" "!abc123" ∅);
                 Invoke (CSetOnlyTrackAnonymousEvents true) ]
               (run sha256_digest posthog_properties tracking_env enabling
                  (initial room_location)))))
  = [Fulfilled].
Proof.
  apply (room_event_dropped_after_hash sha256_digest posthog_properties tracking_env
           room_location enabling "room_view" "!abc123" ∅
           [Invoke (CSetOnlyTrackAnonymousEvents true)] [Resume 1; Resume 1]
           "f9f27b73b7033c3ce2d91c00f7bb46cd9face89fd8b4de5d6e2733d3ac84a6de").
  - discriminate.
  - vm_compute. reflexivity.
  - intros H. apply list_elem_of_singleton in H. discriminate.
  - vm_compute. reflexivity.
Defined.

Lemma room_event_sent_witness :
  events_of 1
    (log (run sha256_digest posthog_properties tracking_env
            [Invoke (CTrackRoomEvent "room_view" "!abc123" ∅); Resume 1; Resume 1; Resume 1]
            (run sha256_digest posthog_properties tracking_env enabling (initial room_location))))
  = [ Fulfilled; CacheUpdated room_url;
      SinkCapture "room_view"
        (sanitizeProperties (mkThis false true (Some room_url))
           (posthog_properties room_location "room_view"
              (<["hashedRoomId" :=
                   JStr "f9f27b73b7033c3ce2d91c00f7bb46cd9face89fd8b4de5d6e2733d3ac84a6de"]> ∅))) ].
Proof.
  apply (room_event_sent sha256_digest posthog_properties tracking_env room_location enabling
           "room_view" "!abc123" ∅).
  - vm_compute. reflexivity.
  - vm_compute. reflexivity.
  - discriminate.
  - vm_compute. reflexivity.
  - vm_compute. reflexivity.
Defined.

Lemma room_event_without_room_witness :
  events_of 1
    (log (run sha256_digest posthog_properties tracking_env
            [Invoke (CTrackRoomEvent "room_view" "" ∅); Resume 1; Resume 1]
            (run sha256_digest posthog_properties tracking_env enabling (initial room_location))))
  = [ Fulfilled; CacheUpdated room_url;
      SinkCapture "room_view"
        (sanitizeProperties (mkThis false true (Some room_url))
           (posthog_properties room_location "room_view" (<["hashedRoomId" := JNull]> ∅))) ].
Proof.
  apply (room_event_without_room sha256_digest posthog_properties tracking_env room_location
           enabling "room_view" ∅).
  - vm_compute. reflexivity.
  - vm_compute. reflexivity.
  - vm_compute. reflexivity.
Defined.


Lemma init_initialises_witness :
  let w' := run sha256_digest posthog_properties tracking_env
              [Invoke (CInit true); Resume 0; Resume 0] (initial room_location) in
  this w' = mkThis true true (Some "https://app.element.io/#/room/<redacted>") /\
  events_of 0 (log w')
  = [ CacheUpdated "https://app.element.io/#/room/<redacted>";
      SinkInit "phc_key" "https://posthog.element.io";
      SinkCapture "$pageview"
        (sanitizeProperties (mkThis true false (Some "https://app.element.io/#/room/<redacted>"))
           (posthog_properties room_location "$pageview" ∅));
      Fulfilled ].
Proof.
  apply (init_initialises sha256_digest posthog_properties tracking_env room_location []
           true element_config "https://app.element.io/#/room/<redacted>").
  - discriminate.
  - reflexivity.
  - vm_compute. reflexivity.
Defined.

Lemma capture_never_before_sink_init_witness :
  exists t' apiKey apiHost,
    (t', SinkInit apiKey apiHost)
    ∈ [(0, CacheUpdated room_url); (0, SinkInit "phc_key" "https://posthog.element.io")].
Proof.
  apply (capture_never_before_sink_init sha256_digest posthog_properties tracking_env
           room_location enabling
           [(0, CacheUpdated room_url); (0, SinkInit "phc_key" "https://posthog.element.io")]
           0 "$pageview"
           (sanitizeProperties (mkThis false false (Some room_url))
              (posthog_properties room_location "$pageview" ∅))
           [(0, Fulfilled)]).
  vm_compute. reflexivity.
Defined.

Lemma cache_never_cleared_witness :
  is_Some (redactedCurrentLocation
             (this (run no_digest posthog_properties dnt_env
                      [Navigate home_location; Invoke (CInit true);
                       Invoke (CTrackRoomEvent "room_view" "!abc123" ∅); Resume 1]
                      (run sha256_digest posthog_properties tracking_env enabling
                         (initial room_location))))).
Proof.
  apply (cache_never_cleared no_digest posthog_properties dnt_env).
  exists room_url. vm_compute. reflexivity.
Defined.

Lemma cannot_be_enabled_witness :
  let w := run sha256_digest posthog_properties unconfigured_env
             [Invoke (CInit false); Invoke (CIdentifyUser "@alice:example.org"); Resume 1;
              Invoke (CTrackAnonymousEvent "onboarding_login_begin" ∅); Resume 2]
             (initial room_location) in
  isInitialised (this w) = false /\
  forall t e, (t, e) ∈ log w -> is_sink_call e = true -> exists id, e = SinkIdentify id.
Proof.
  apply (cannot_be_enabled sha256_digest posthog_properties unconfigured_env room_location).
  right. reflexivity.
Defined.
